(** * llvmbf: a single-pass Brainfuck-to-LLVM-IR translator (main.py)

    Shallow embedding of [compile_bf], [create_thunk], [getc] and [putc],
    together with an operational reading of the IR that [compile_bf] emits,
    and the properties of the translator stated over that embedding. *)

From Stdlib Require Import ZArith String Ascii List Lia Bool DecimalString.
From stdpp Require Import base option list gmap.
Import ListNotations.
Set Warnings "-register-all".
Local Open Scope string_scope.
Local Open Scope list_scope.

(** ** The IR objects built through llvmlite *)

Module IR.

(** [ll.IntType], [ll.ArrayType], [ll.FunctionType], [as_pointer]. *)
Inductive ty : Type :=
| IntType (bits : Z)
| ArrayType (elem : ty) (count : Z)
| PointerType (pointee : ty)
| VoidType
| FunctionType (ret : ty) (args : list ty).

(** The two ctypes callback objects held in module globals. *)
Inductive callback : Type := PUTC_WRAPPER | GETC_WRAPPER.

(** Values an instruction can take as operand. [Value n t] is the result
    of the instruction object numbered [n] in its function. *)
Inductive operand : Type :=
| Constant (t : ty) (c : Z)
| CallbackAddr (t : ty) (cb : callback)
    (* ll.Constant(t, cast(cb, c_void_p).value) *)
| GlobalVariable (name : string) (t : ty)
| FunctionRef (name : string) (t : ty)
| Argument (k : nat) (t : ty)
| Value (n : nat) (t : ty).

Definition type_of (o : operand) : ty :=
  match o with
  | Constant t _ => t
  | CallbackAddr t _ => t
  | GlobalVariable _ t => PointerType t
  | FunctionRef _ t => PointerType t
  | Argument _ t => t
  | Value _ t => t
  end.

(** A basic block is named by its position in the function's block list. *)
Definition label := nat.

Inductive instr : Type :=
| Load (n : nat) (t : ty) (ptr : operand)
| Store (value ptr : operand)
| Add (n : nat) (t : ty) (lhs rhs : operand)
| Sub (n : nat) (t : ty) (lhs rhs : operand)
| And (n : nat) (t : ty) (lhs rhs : operand)
| GEP (n : nat) (t : ty) (ptr : operand) (indices : list operand)
| ICmpNe (n : nat) (lhs rhs : operand)
| Call (n : nat) (t : ty) (fn : operand) (args : list operand)
| IntToPtr (n : nat) (t : ty) (value : operand)
| CBranch (cond : operand) (truebr falsebr : label)
| RetVoid
| Ret (value : operand).

Definition is_terminator (i : instr) : bool :=
  match i with
  | CBranch _ _ _ | RetVoid | Ret _ => true
  | _ => false
  end.

Definition block := list instr.

Record function : Type := Function {
  fn_name : string;
  fn_type : ty;
  fn_blocks : list block
}.

End IR.
Import IR.

(** ** Module-level constants of main.py *)

Definition i8 : ty := IntType 8.
Definition i32 : ty := IntType 32.
Definition i64 : ty := IntType 64.

Definition MEMORY_SIZE : Z := Z.shiftl 1 16.

Definition COMPILED_FN_TYPE : ty := FunctionType VoidType [].
Definition MEMORY_TYPE : ty := ArrayType i8 MEMORY_SIZE.

Definition ZERO_i8 : operand := Constant i8 0.
(* The source builds this constant with type i8, whatever its name says. *)
Definition ZERO_i32 : operand := Constant i8 0.
Definition ONE_i8 : operand := Constant i8 1.
Definition ONE_i32 : operand := Constant i32 1.
Definition MEMORY_MASK_i32 : operand := Constant i32 (MEMORY_SIZE - 1).

Definition putc_type : ty := FunctionType VoidType [i8].
Definition getc_type : ty := FunctionType i8 [].

Definition g_memory : operand := GlobalVariable "memory" MEMORY_TYPE.
Definition g_index : operand := GlobalVariable "index" i32.
Definition f_putc : operand := FunctionRef "putc" putc_type.
Definition f_getc : operand := FunctionRef "getc" getc_type.

(** ** create_thunk *)

Definition as_pointer (t : ty) : ty := PointerType t.

Definition return_type (t : ty) : ty :=
  match t with FunctionType r _ => r | _ => VoidType end.

Definition arg_types (t : ty) : list ty :=
  match t with FunctionType _ a => a | _ => [] end.

Definition is_void (t : ty) : bool :=
  match t with VoidType => true | _ => false end.

Definition func_args (t : ty) : list operand :=
  imap (fun k a => Argument k a) (arg_types t).

(** The thunk has one block: reinterpret the callback's address as a
    function pointer, call it with the thunk's own arguments, and return
    what it returned. *)
Definition create_thunk (func_type : ty) (c_wrapper : callback)
    (name : string) : function :=
  let thunk_addr := CallbackAddr i64 c_wrapper in
  let func_ptr_type := as_pointer func_type in
  let thunk := Value 0 func_ptr_type in
  let call := Value 1 (return_type func_type) in
  Function name func_type
    [[IntToPtr 0 func_ptr_type thunk_addr;
      Call 1 (return_type func_type) thunk (func_args func_type);
      if is_void (return_type func_type) then RetVoid else Ret call]].

(** ** The state threaded through compile_bf

    [blocks] is the block list of [bfmain]; [names] the number the next
    instruction object receives; [position] the block the [IRBuilder] is
    positioned at. [block_stack] and [loop_stack] are the two Python lists
    used as stacks: the head of the Rocq list is the Python [xs[-1]]. *)

Record state : Type := State {
  blocks : list block;
  names : nat;
  position : label;
  block_stack : list label;
  loop_stack : list label;
  line : nat;
  col : nat
}.

Definition set_blocks (f : list block -> list block) (st : state) : state :=
  State (f (blocks st)) (names st) (position st) (block_stack st)
        (loop_stack st) (line st) (col st).

Definition set_names (n : nat) (st : state) : state :=
  State (blocks st) n (position st) (block_stack st)
        (loop_stack st) (line st) (col st).

Definition set_stacks (bs ls : list label) (st : state) : state :=
  State (blocks st) (names st) (position st) bs ls (line st) (col st).

Definition set_pos (l c : nat) (st : state) : state :=
  State (blocks st) (names st) (position st) (block_stack st)
        (loop_stack st) l c.

(** *** IRBuilder operations *)

(** [builder.position_at_end(b)] *)
Definition position_at_end (b : label) (st : state) : state :=
  State (blocks st) (names st) b (block_stack st)
        (loop_stack st) (line st) (col st).

(** [func.append_basic_block()] *)
Definition append_basic_block (st : state) : label * state :=
  (length (blocks st), set_blocks (fun bs => bs ++ [[]]) st).

(** Appending an instruction object at the builder's position. *)
Definition emit (i : instr) (st : state) : state :=
  set_blocks (alter (fun b => b ++ [i]) (position st)) st.

Definition pointee (t : ty) : ty :=
  match t with PointerType p => p | _ => VoidType end.

(** The type llvmlite gives one [getelementptr] step into [t]. *)
Definition gep_step (t : ty) : ty :=
  match t with
  | PointerType p => p
  | ArrayType e _ => e
  | _ => VoidType
  end.

Definition load (ptr : operand) (st : state) : operand * state :=
  let n := names st in
  let t := pointee (type_of ptr) in
  (Value n t, emit (Load n t ptr) (set_names (S n) st)).

Definition store (value ptr : operand) (st : state) : state :=
  emit (Store value ptr) st.

Definition add (lhs rhs : operand) (st : state) : operand * state :=
  let n := names st in
  let t := type_of lhs in
  (Value n t, emit (Add n t lhs rhs) (set_names (S n) st)).

Definition sub (lhs rhs : operand) (st : state) : operand * state :=
  let n := names st in
  let t := type_of lhs in
  (Value n t, emit (Sub n t lhs rhs) (set_names (S n) st)).

Definition and_ (lhs rhs : operand) (st : state) : operand * state :=
  let n := names st in
  let t := type_of lhs in
  (Value n t, emit (And n t lhs rhs) (set_names (S n) st)).

Definition gep (ptr : operand) (indices : list operand) (st : state)
    : operand * state :=
  let n := names st in
  let t := PointerType (fold_left (fun t _ => gep_step t) indices (type_of ptr)) in
  (Value n t, emit (GEP n t ptr indices) (set_names (S n) st)).

(** [builder.icmp_unsigned('!=', lhs, rhs)] *)
Definition icmp_unsigned_ne (lhs rhs : operand) (st : state)
    : operand * state :=
  let n := names st in
  (Value n (IntType 1), emit (ICmpNe n lhs rhs) (set_names (S n) st)).

Definition call (fn : operand) (args : list operand) (st : state)
    : operand * state :=
  let n := names st in
  let t := return_type (pointee (type_of fn)) in
  (Value n t, emit (Call n t fn args) (set_names (S n) st)).

Definition cbranch (cond : operand) (truebr falsebr : label) (st : state)
    : state :=
  emit (CBranch cond truebr falsebr) st.

Definition ret_void (st : state) : state := emit RetVoid st.

(** The nested helper of compile_bf: &memory[0][index]. *)
Definition current_index_ptr (st : state) : operand * state :=
  let '(index, st) := load g_index st in
  gep g_memory [ZERO_i32; index] st.

(** *** Exceptions *)

Inductive unmatched : Type := unmatched_close | unmatched_open.

Inductive exn : Type :=
| ValueError (l c : nat) (what : unmatched)
| IndexError
| RuntimeError.

Definition str_nat (n : nat) : string :=
  NilEmpty.string_of_uint (Nat.to_uint n).

(** The text of the exception, as [format] builds it. *)
Definition message (e : exn) : string :=
  match e with
  | ValueError l c unmatched_close =>
      (str_nat l ++ ":" ++ str_nat c ++ ": unmatched ]")%string
  | ValueError l c unmatched_open =>
      (str_nat l ++ ":" ++ str_nat c ++ ": unmatched [")%string
  | IndexError => "list index out of range"
  | RuntimeError => "LLVM IR parsing error"
  end.

(** *** The body of the scanning loop *)

Definition newline : ascii := "010"%char.

Definition step (ch : ascii) (st : state) : exn + state :=
  let st := set_pos (line st) (col st + 1) st in
  if Ascii.eqb ch newline then
    inr (set_pos (line st + 1) 1 st)
  else if Ascii.eqb ch "." then
    let '(ptr, st) := current_index_ptr st in
    let '(value, st) := load ptr st in
    let '(_, st) := call f_putc [value] st in
    inr st
  else if Ascii.eqb ch "," then
    let '(res, st) := call f_getc [] st in
    let '(ptr, st) := current_index_ptr st in
    inr (store res ptr st)
  else if Ascii.eqb ch ">" then
    let '(index, st) := load g_index st in
    let '(index, st) := add index ONE_i32 st in
    let '(index, st) := and_ index MEMORY_MASK_i32 st in
    inr (store index g_index st)
  else if Ascii.eqb ch "<" then
    let '(index, st) := load g_index st in
    let '(index, st) := sub index ONE_i32 st in
    let '(index, st) := and_ index MEMORY_MASK_i32 st in
    inr (store index g_index st)
  else if Ascii.eqb ch "+" then
    let '(ptr, st) := current_index_ptr st in
    let '(value, st) := load ptr st in
    let '(value, st) := add value ONE_i8 st in
    inr (store value ptr st)
  else if Ascii.eqb ch "-" then
    let '(ptr, st) := current_index_ptr st in
    let '(value, st) := load ptr st in
    let '(value, st) := sub value ONE_i8 st in
    inr (store value ptr st)
  else if Ascii.eqb ch "[" then
    let '(loop_block, st) := append_basic_block st in
    let '(tail_block, st) := append_basic_block st in
    let '(ptr, st) := current_index_ptr st in
    let '(value, st) := load ptr st in
    let '(nonzero, st) := icmp_unsigned_ne value ZERO_i8 st in
    let st := cbranch nonzero loop_block tail_block st in
    match block_stack st with
    | [] => inl IndexError              (* pop from empty list *)
    | _ :: rest =>
        let st := set_stacks (loop_block :: tail_block :: rest)
                             (loop_block :: loop_stack st) st in
        inr (position_at_end loop_block st)
    end
  else if Ascii.eqb ch "]" then
    if Nat.leb (length (block_stack st)) 1 then
      inl (ValueError (line st) (col st) unmatched_close)
    else
      let '(ptr, st) := current_index_ptr st in
      let '(value, st) := load ptr st in
      let '(nonzero, st) := icmp_unsigned_ne value ZERO_i8 st in
      match loop_stack st, block_stack st with
      | [], _ => inl IndexError         (* loop_stack[-1] *)
      | header :: loops, _ :: below :: rest =>
          let st := cbranch nonzero header below st in
          let st := set_stacks (below :: rest) loops st in
          inr (position_at_end below st)
      | _ :: _, _ => inl IndexError     (* block_stack[-2] *)
      end
  else
    inr st.

Fixpoint scan (prog : string) (st : state) : exn + state :=
  match prog with
  | EmptyString => inr st
  | String ch rest =>
      match step ch st with
      | inl e => inl e
      | inr st' => scan rest st'
      end
  end.

(** *** The module around bfmain *)

Inductive global : Type :=
| GFunction (f : function)
| GVariable (name : string) (t : ty) (initializer : Z).
    (* ll.Constant(t, None): every byte zero *)

Definition module := list global.

(** State at the start of the loop: the block 'entry' exists, the builder
    is positioned at it, and it is the only element of [block_stack]. *)
Definition initial : state := State [[]] 0 0 [0] [] 1 1.

Definition build_module (st : state) : module :=
  [ GFunction (Function "bfmain" COMPILED_FN_TYPE (blocks st));
    GVariable "memory" MEMORY_TYPE 0;
    GVariable "index" i32 0;
    GFunction (create_thunk putc_type PUTC_WRAPPER "putc");
    GFunction (create_thunk getc_type GETC_WRAPPER "getc") ].

(** What the LLVM assembly reader requires of the shape of a block: some
    instructions that are not terminators, then one terminator. *)
Definition block_ok (b : block) : bool :=
  match rev b with
  | [] => false
  | t :: body => is_terminator t && forallb (fun i => negb (is_terminator i)) body
  end.

Definition function_ok (f : function) : bool :=
  match fn_blocks f with
  | [] => false
  | bs => forallb block_ok bs
  end.

Definition global_ok (g : global) : bool :=
  match g with
  | GFunction f => function_ok f
  | GVariable _ _ _ => true
  end.

(** [llvm.parse_assembly(str(module))]: the module read back, or a
    [RuntimeError] when the text is not well formed. *)
Definition parse_assembly (m : module) : exn + module :=
  if forallb global_ok m then inr m else inl RuntimeError.

Definition compile_bf (prog : string) : exn + module :=
  match scan prog initial with
  | inl e => inl e
  | inr st =>
      if negb (Nat.eqb (length (block_stack st)) 1) then
        inl (ValueError (line st) (col st) unmatched_open)
      else
        parse_assembly (build_module (ret_void st))
  end.

(** ** The host side: getc, putc and their ctypes wrappers *)

Module Host.
Local Open Scope Z_scope.

(** The Python values that cross the callback boundary. *)
Inductive pyval : Type :=
| PyNone
| PyInt (z : Z)
| PyStr (s : string).

(** [sys.stdin] and [sys.stdout]: what is still to be read, what has been
    written but not flushed, and what has reached the output stream. *)
Record io : Type := IO {
  stdin : string;
  buffered : string;
  output : string
}.

(** [sys.stdin.read(1)]: one character, or the empty string at the end. *)
Definition read1 (h : io) : string * io :=
  match stdin h with
  | EmptyString => (EmptyString, h)
  | String c rest => (String c EmptyString, IO rest (buffered h) (output h))
  end.

Definition write (s : string) (h : io) : io :=
  IO (stdin h) (buffered h ++ s)%string (output h).

Definition flush (h : io) : io :=
  IO (stdin h) EmptyString (output h ++ buffered h)%string.

(** [chr] on the code points 0..255. *)
Definition chr (z : Z) : string :=
  String (ascii_of_N (Z.to_N z)) EmptyString.

Definition getc (h : io) : pyval * io :=
  let '(s, h) := read1 h in (PyStr s, h).

Definition putc (c : Z) (h : io) : pyval * io :=
  let h := write (chr (Z.land c 127)) h in
  (PyNone, flush h).

(** ctypes, [c_int8] as argument type: the callback receives the byte as
    a Python int in -128..127. *)
Definition from_c_int8 (v : Z) : Z :=
  let u := v mod 256 in if u <? 128 then u else u - 256.

(** ctypes, [c_int8] as result type: only a Python int converts; for any
    other object the conversion raises inside the callback, the exception
    is reported and dropped, and the result slot is left unwritten. *)
Definition to_c_int8 (r : pyval) : option Z :=
  match r with
  | PyInt z => Some (z mod 256)
  | _ => None
  end.

(** Outcome of calling a wrapper from native code: [None] when the value
    handed back to the caller is not defined. *)
Definition call_wrapper (cb : callback) (args : list Z) (h : io)
    : option (option Z * io) :=
  match cb, args with
  | PUTC_WRAPPER, [v] =>
      let '(_, h) := putc (from_c_int8 v) h in Some (None, h)
  | GETC_WRAPPER, [] =>
      let '(r, h) := getc h in
      match to_c_int8 r with
      | Some z => Some (Some z, h)
      | None => None
      end
  | _, _ => None
  end.

End Host.

(** ** An operational reading of the emitted IR *)

Module Sem.
Local Open Scope Z_scope.

Inductive val : Type :=
| VInt (z : Z)                       (* an iN value, as 0 .. 2^N-1 *)
| VPtr (g : string) (offset : Z)     (* address inside a global *)
| VFunc (name : string)              (* a function of the module *)
| VCallback (cb : callback).         (* address of a ctypes wrapper *)

Record machine : Type := Machine {
  memory : Z -> Z;      (* the cells of @memory *)
  index : Z;            (* @index *)
  host : Host.io
}.

Record env : Type := Env {
  args : list val;
  regs : gmap nat val
}.

Definition bind (n : nat) (v : val) (e : env) : env :=
  Env (args e) (<[n := v]> (regs e)).

Definition bits (t : ty) : Z :=
  match t with IntType b => b | _ => 0 end.

Definition wrap (t : ty) (z : Z) : Z := z mod 2 ^ bits t.

Definition signed (t : ty) (z : Z) : Z :=
  if z <? 2 ^ (bits t - 1) then z else z - 2 ^ bits t.

Fixpoint sizeof (t : ty) : Z :=
  match t with
  | IntType b => b / 8
  | ArrayType e n => n * sizeof e
  | PointerType _ => 8
  | _ => 0
  end.

Definition eval (e : env) (o : operand) : option val :=
  match o with
  | Constant t c => Some (VInt (wrap t c))
  | CallbackAddr _ cb => Some (VCallback cb)
  | GlobalVariable name _ => Some (VPtr name 0)
  | FunctionRef name _ => Some (VFunc name)
  | Argument k _ => args e !! k
  | Value n _ => regs e !! n
  end.

Definition eval_int (e : env) (o : operand) : option Z :=
  match eval e o with Some (VInt z) => Some z | _ => None end.

(** Byte offset of a [getelementptr]: each index, read as a signed
    integer of its own type, scales by the size of the type stepped to. *)
Fixpoint gep_offset (e : env) (t : ty) (indices : list operand)
    : option Z :=
  match indices with
  | [] => Some 0
  | i :: rest =>
      match eval_int e i, gep_offset e (gep_step t) rest with
      | Some z, Some off =>
          Some (signed (type_of i) z * sizeof (gep_step t) + off)
      | _, _ => None
      end
  end.

Definition read (m : machine) (g : string) (off : Z) (t : ty) : option Z :=
  if String.eqb g "index" then
    if (off =? 0) && (bits t =? 32) then Some (index m) else None
  else if String.eqb g "memory" then
    if (0 <=? off) && (off <? MEMORY_SIZE) && (bits t =? 8)
    then Some (memory m off) else None
  else None.

Definition write (m : machine) (g : string) (off : Z) (t : ty) (v : Z)
    : option machine :=
  if String.eqb g "index" then
    if (off =? 0) && (bits t =? 32)
    then Some (Machine (memory m) v (host m)) else None
  else if String.eqb g "memory" then
    if (0 <=? off) && (off <? MEMORY_SIZE) && (bits t =? 8)
    then Some (Machine (fun k => if k =? off then v else memory m k)
                       (index m) (host m))
    else None
  else None.

Definition set_host (h : Host.io) (m : machine) : machine :=
  Machine (memory m) (index m) h.

Inductive control : Type :=
| Goto (l : label)
| Return (v : option val).

Section Exec.

(** How a call to a function of the module is carried out. *)
Variable call_function :
  string -> list val -> machine -> option (option val * machine).

Definition exec_call (fn : val) (vs : list val) (m : machine)
    : option (option val * machine) :=
  match fn with
  | VFunc name => call_function name vs m
  | VCallback cb =>
      match mapM (fun v => match v with VInt z => Some z | _ => None end) vs with
      | Some zs =>
          match Host.call_wrapper cb zs (host m) with
          | Some (r, h) => Some (VInt <$> r, set_host h m)
          | None => None
          end
      | None => None
      end
  | _ => None
  end.

(** One instruction that is not a terminator; [None] is undefined
    behaviour. *)
Definition exec_instr (i : instr) (e : env) (m : machine)
    : option (env * machine) :=
  match i with
  | Load n t ptr =>
      match eval e ptr with
      | Some (VPtr g off) =>
          z ← read m g off t; Some (bind n (VInt z) e, m)
      | _ => None
      end
  | Store value ptr =>
      match eval_int e value, eval e ptr with
      | Some z, Some (VPtr g off) =>
          m' ← write m g off (type_of value) z; Some (e, m')
      | _, _ => None
      end
  | Add n t lhs rhs =>
      x ← eval_int e lhs; y ← eval_int e rhs;
      Some (bind n (VInt (wrap t (x + y))) e, m)
  | Sub n t lhs rhs =>
      x ← eval_int e lhs; y ← eval_int e rhs;
      Some (bind n (VInt (wrap t (x - y))) e, m)
  | And n t lhs rhs =>
      x ← eval_int e lhs; y ← eval_int e rhs;
      Some (bind n (VInt (Z.land x y)) e, m)
  | GEP n t ptr indices =>
      match eval e ptr with
      | Some (VPtr g off) =>
          d ← gep_offset e (type_of ptr) indices;
          Some (bind n (VPtr g (off + d)) e, m)
      | _ => None
      end
  | ICmpNe n lhs rhs =>
      x ← eval_int e lhs; y ← eval_int e rhs;
      Some (bind n (VInt (if x =? y then 0 else 1)) e, m)
  | Call n t fn actuals =>
      f ← eval e fn;
      vs ← mapM (eval e) actuals;
      '(r, m') ← exec_call f vs m;
      match r with
      | Some v => Some (bind n v e, m')
      | None => if is_void t then Some (e, m') else None
      end
  | IntToPtr n t value =>
      match eval e value with
      | Some (VCallback cb) => Some (bind n (VCallback cb) e, m)
      | _ => None
      end
  | CBranch _ _ _ | RetVoid | Ret _ => None
  end.

(** A block runs to its terminator. *)
Fixpoint exec_block (b : block) (e : env) (m : machine)
    : option (control * env * machine) :=
  match b with
  | [] => None
  | CBranch c t f :: _ =>
      z ← eval_int e c;
      Some (Goto (if z =? 0 then f else t), e, m)
  | RetVoid :: _ => Some (Return None, e, m)
  | Ret v :: _ => x ← eval e v; Some (Return (Some x), e, m)
  | i :: rest =>
      '(e', m') ← exec_instr i e m; exec_block rest e' m'
  end.

Inductive outcome : Type :=
| Returned (v : option val) (m : machine)
| Undefined
| OutOfFuel.

(** A function body runs block after block, [fuel] blocks at most. *)
Fixpoint exec_blocks (fuel : nat) (bs : list block) (l : label)
    (e : env) (m : machine) : outcome :=
  match fuel with
  | O => OutOfFuel
  | S fuel =>
      match bs !! l with
      | None => Undefined
      | Some b =>
          match exec_block b e m with
          | None => Undefined
          | Some (Return v, _, m') => Returned v m'
          | Some (Goto l', e', m') => exec_blocks fuel bs l' e' m'
          end
      end
  end.

End Exec.

Fixpoint lookup_function (md : module) (name : string)
    : option function :=
  match md with
  | [] => None
  | GFunction f :: rest =>
      if String.eqb (fn_name f) name then Some f
      else lookup_function rest name
  | GVariable _ _ _ :: rest => lookup_function rest name
  end.

(** The functions bfmain calls are the two thunks: one block each, which
    calls no function of the module. *)
Definition call_thunk (md : module) (name : string) (vs : list val)
    (m : machine) : option (option val * machine) :=
  f ← lookup_function md name;
  match exec_blocks (fun _ _ _ => None) 1%nat (fn_blocks f) 0%nat (Env vs ∅) m with
  | Returned v m' => Some (v, m')
  | _ => None
  end.

(** The machine the module starts on: every cell and the index zero. *)
Definition boot (input : string) : machine :=
  Machine (fun _ => 0) 0 (Host.IO input EmptyString EmptyString).

(** [bfmain()] *)
Definition run_from (fuel : nat) (md : module) (m : machine) : outcome :=
  match lookup_function md "bfmain" with
  | Some f => exec_blocks (call_thunk md) fuel (fn_blocks f) 0%nat (Env [] ∅) m
  | None => Undefined
  end.

Definition run (fuel : nat) (md : module) (input : string) : outcome :=
  run_from fuel md (boot input).

End Sem.

(** Compiling and running, with the text that reached the output. *)
Definition compile_and_run (fuel : nat) (prog input : string)
    : option string :=
  match compile_bf prog with
  | inr md =>
      match Sem.run fuel md input with
      | Sem.Returned _ m => Some (Host.output (Sem.host m))
      | _ => None
      end
  | inl _ => None
  end.

(** * Properties *)

(** ** What one character appends to the function *)

(** The instructions computing &memory[0][index], the first numbered [n]. *)
Definition ptr_code (n : nat) : list instr :=
  [ Load n i32 g_index;
    GEP (S n) (PointerType i8) g_memory [ZERO_i32; Value n i32] ].

Definition cell_ptr (n : nat) : operand := Value (S n) (PointerType i8).

(** Instructions appended for a character that is neither a bracket nor a
    newline, and how many of them are numbered. *)
Definition straight_code (ch : ascii) (n : nat) : list instr :=
  if Ascii.eqb ch "." then
    ptr_code n ++ [Load (2 + n) i8 (cell_ptr n);
                   Call (3 + n) VoidType f_putc [Value (2 + n) i8]]
  else if Ascii.eqb ch "," then
    Call n i8 f_getc [] :: ptr_code (S n) ++
      [Store (Value n i8) (cell_ptr (S n))]
  else if Ascii.eqb ch ">" then
    [Load n i32 g_index; Add (S n) i32 (Value n i32) ONE_i32;
     And (2 + n) i32 (Value (S n) i32) MEMORY_MASK_i32;
     Store (Value (2 + n) i32) g_index]
  else if Ascii.eqb ch "<" then
    [Load n i32 g_index; Sub (S n) i32 (Value n i32) ONE_i32;
     And (2 + n) i32 (Value (S n) i32) MEMORY_MASK_i32;
     Store (Value (2 + n) i32) g_index]
  else if Ascii.eqb ch "+" then
    ptr_code n ++ [Load (2 + n) i8 (cell_ptr n);
                   Add (3 + n) i8 (Value (2 + n) i8) ONE_i8;
                   Store (Value (3 + n) i8) (cell_ptr n)]
  else if Ascii.eqb ch "-" then
    ptr_code n ++ [Load (2 + n) i8 (cell_ptr n);
                   Sub (3 + n) i8 (Value (2 + n) i8) ONE_i8;
                   Store (Value (3 + n) i8) (cell_ptr n)]
  else [].

Definition straight_names (ch : ascii) : nat :=
  if Ascii.eqb ch "." then 4
  else if Ascii.eqb ch "," then 3
  else if Ascii.eqb ch ">" then 3
  else if Ascii.eqb ch "<" then 3
  else if Ascii.eqb ch "+" then 4
  else if Ascii.eqb ch "-" then 4
  else 0.

(** The test emitted at either bracket, ending the current block. *)
Definition branch_code (n : nat) (truebr falsebr : label) : list instr :=
  ptr_code n ++ [Load (2 + n) i8 (cell_ptr n);
                 ICmpNe (3 + n) (Value (2 + n) i8) ZERO_i8;
                 CBranch (Value (3 + n) (IntType 1)) truebr falsebr].

Definition is_bracket (ch : ascii) : bool :=
  Ascii.eqb ch "[" || Ascii.eqb ch "]".

Lemma alter_app_app (bs : list block) (l : label) (c1 c2 : list instr) :
  alter (fun b => b ++ c2) l (alter (fun b => b ++ c1) l bs)
  = alter (fun b => b ++ (c1 ++ c2)) l bs.
Proof.
  rewrite list_alter_alter_eq. apply list_alter_ext; [|done].
  intros b _. simpl. by rewrite <- app_assoc.
Qed.

Lemma alter_app_one (bs : list block) (l : label) (c : list instr) (i : instr) :
  alter (fun b => b ++ [i]) l (alter (fun b => b ++ c) l bs)
  = alter (fun b => b ++ (c ++ [i])) l bs.
Proof. apply alter_app_app. Qed.

Lemma alter_one_one (bs : list block) (l : label) (i j : instr) :
  alter (fun b => b ++ [j]) l (alter (fun b => b ++ [i]) l bs)
  = alter (fun b => b ++ [i; j]) l bs.
Proof. apply (alter_app_app bs l [i] [j]). Qed.

(** Unfolding the builder calls of one branch of [step]. *)
Ltac run_builder :=
  cbv [current_index_ptr load gep call add sub and_ store emit
       icmp_unsigned_ne cbranch append_basic_block position_at_end
       set_blocks set_names set_pos set_stacks
       blocks names position block_stack loop_stack line col];
  rewrite ?alter_app_app.

(** Reducing the fields of an explicit state. *)
Ltac fields :=
  cbn [blocks names position block_stack loop_stack line col] in *.

(** Scanning a given text: [st] is the state reached, [Hs] says so, and
    [Hv] gives its value. *)
Ltac run_scan p st Hs Hv :=
  destruct (scan p initial) as [?|st] eqn:Hs; [by vm_compute in Hs|];
  pose proof Hs as Hv; vm_compute in Hv; injection Hv as Hv.

Lemma step_straight (ch : ascii) (st : state) :
  is_bracket ch = false -> ch <> newline ->
  step ch st =
    inr (State (alter (fun b => b ++ straight_code ch (names st))
                      (position st) (blocks st))
               (straight_names ch + names st) (position st)
               (block_stack st) (loop_stack st) (line st) (col st + 1)).
Proof.
  intros Hb Hn. unfold step, is_bracket in *.
  apply orb_false_elim in Hb as [Ho Hc].
  apply Ascii.eqb_neq in Hn. rewrite Hn, Ho, Hc. clear Hn Ho Hc.
  unfold straight_code, straight_names.
  destruct st as [bl n p bs ls l c].
  destruct (Ascii.eqb ch "."); [run_builder; reflexivity|].
  destruct (Ascii.eqb ch ","); [run_builder; reflexivity|].
  destruct (Ascii.eqb ch ">"); [run_builder; reflexivity|].
  destruct (Ascii.eqb ch "<"); [run_builder; reflexivity|].
  destruct (Ascii.eqb ch "+"); [run_builder; reflexivity|].
  destruct (Ascii.eqb ch "-"); [run_builder; reflexivity|].
  run_builder. by rewrite list_alter_id by (intros; apply app_nil_r).
Qed.

(** Deciding which branch of [step] a given character takes. *)
Ltac dispatch := unfold step; cbv [Ascii.eqb Bool.eqb newline andb].

Lemma step_newline (st : state) :
  step newline st =
    inr (State (blocks st) (names st) (position st) (block_stack st)
               (loop_stack st) (line st + 1) 1).
Proof. dispatch. destruct st. run_builder. reflexivity. Qed.

Lemma step_open (st : state) (top : label) (rest : list label) :
  block_stack st = top :: rest ->
  step "[" st =
    inr (State (alter (fun b => b ++ branch_code (names st)
                                  (length (blocks st))
                                  (S (length (blocks st))))
                      (position st) (blocks st ++ [[]; []]))
               (4 + names st) (length (blocks st))
               (length (blocks st) :: S (length (blocks st)) :: rest)
               (length (blocks st) :: loop_stack st)
               (line st) (col st + 1)).
Proof.
  destruct st as [bl n p bs ls l c]. cbn [block_stack]. intros ->.
  dispatch. run_builder.
  rewrite length_app, <- app_assoc. cbn [length app].
  by rewrite Nat.add_1_r.
Qed.

Lemma step_open_empty (st : state) :
  block_stack st = [] -> step "[" st = inl IndexError.
Proof.
  destruct st as [bl n p bs ls l c]. cbn [block_stack]. intros ->.
  dispatch. run_builder. reflexivity.
Qed.

Lemma step_close (st : state) (top below header : label)
    (rest loops : list label) :
  block_stack st = top :: below :: rest ->
  loop_stack st = header :: loops ->
  step "]" st =
    inr (State (alter (fun b => b ++ branch_code (names st) header below)
                      (position st) (blocks st))
               (4 + names st) below (below :: rest) loops
               (line st) (col st + 1)).
Proof.
  destruct st as [bl n p bs ls l c]. cbn [block_stack loop_stack].
  intros -> ->. dispatch. run_builder. reflexivity.
Qed.

Lemma step_close_unmatched (st : state) :
  length (block_stack st) <= 1 ->
  step "]" st = inl (ValueError (line st) (col st + 1) unmatched_close).
Proof.
  destruct st as [bl n p bs ls l c]. cbn [block_stack line col].
  intros H. dispatch. run_builder.
  by apply Nat.leb_le in H as ->.
Qed.

Lemma step_close_no_loop (st : state) :
  1 < length (block_stack st) -> loop_stack st = [] ->
  step "]" st = inl IndexError.
Proof.
  destruct st as [bl n p bs ls l c]. cbn [block_stack loop_stack].
  intros H ->. dispatch. run_builder.
  apply Nat.leb_gt in H as ->. reflexivity.
Qed.

(** The seven ways one turn of the loop can go. *)
Inductive step_spec (ch : ascii) (st : state) : exn + state -> Prop :=
| Step_newline :
    ch = newline ->
    step_spec ch st
      (inr (State (blocks st) (names st) (position st) (block_stack st)
                  (loop_stack st) (line st + 1) 1))
| Step_straight :
    is_bracket ch = false -> ch <> newline ->
    step_spec ch st
      (inr (State (alter (fun b => b ++ straight_code ch (names st))
                         (position st) (blocks st))
                  (straight_names ch + names st) (position st)
                  (block_stack st) (loop_stack st) (line st) (col st + 1)))
| Step_open top rest :
    ch = "["%char -> block_stack st = top :: rest ->
    step_spec ch st
      (inr (State (alter (fun b => b ++ branch_code (names st)
                                     (length (blocks st))
                                     (S (length (blocks st))))
                         (position st) (blocks st ++ [[]; []]))
                  (4 + names st) (length (blocks st))
                  (length (blocks st) :: S (length (blocks st)) :: rest)
                  (length (blocks st) :: loop_stack st)
                  (line st) (col st + 1)))
| Step_open_empty :
    ch = "["%char -> block_stack st = [] ->
    step_spec ch st (inl IndexError)
| Step_close top below rest header loops :
    ch = "]"%char -> block_stack st = top :: below :: rest ->
    loop_stack st = header :: loops ->
    step_spec ch st
      (inr (State (alter (fun b => b ++ branch_code (names st) header below)
                         (position st) (blocks st))
                  (4 + names st) below (below :: rest) loops
                  (line st) (col st + 1)))
| Step_close_unmatched :
    ch = "]"%char -> length (block_stack st) <= 1 ->
    step_spec ch st
      (inl (ValueError (line st) (col st + 1) unmatched_close))
| Step_close_no_loop :
    ch = "]"%char -> 1 < length (block_stack st) -> loop_stack st = [] ->
    step_spec ch st (inl IndexError).

Lemma step_cases (ch : ascii) (st : state) : step_spec ch st (step ch st).
Proof.
  destruct (Ascii.eqb_spec ch newline) as [->|Hn].
  { rewrite step_newline. by constructor. }
  destruct (Ascii.eqb_spec ch "[") as [->|Ho].
  { destruct (block_stack st) as [|top rest] eqn:Hs.
    - rewrite step_open_empty by done. by constructor.
    - rewrite (step_open st top rest Hs). by econstructor. }
  destruct (Ascii.eqb_spec ch "]") as [->|Hc].
  { destruct (block_stack st) as [|top [|below rest]] eqn:Hs.
    - rewrite step_close_unmatched by (rewrite Hs; simpl; lia).
      constructor; [done|]. rewrite Hs. simpl. lia.
    - rewrite step_close_unmatched by (rewrite Hs; simpl; lia).
      constructor; [done|]. rewrite Hs. simpl. lia.
    - destruct (loop_stack st) as [|header loops] eqn:Hl.
      + rewrite step_close_no_loop; [|rewrite Hs; simpl; lia|done].
        constructor; [done| |done]. rewrite Hs. simpl. lia.
      + rewrite (step_close st top below header rest loops Hs Hl).
        by econstructor. }
  assert (Hb : is_bracket ch = false).
  { unfold is_bracket. apply Ascii.eqb_neq in Ho, Hc. by rewrite Ho, Hc. }
  rewrite step_straight by done. by constructor.
Qed.

(** The scan itself raises no [RuntimeError]. *)
Lemma scan_no_runtime_error (prog : string) (st : state) :
  scan prog st <> inl RuntimeError.
Proof.
  revert st. induction prog as [|ch rest IH]; intros st; simpl; [done|].
  destruct (step_cases ch st); try done; apply IH.
Qed.

(** ** The invariant of the scan *)

(** A block still being filled holds no terminator. *)
Definition open_block (b : block) : bool :=
  forallb (fun i => negb (is_terminator i)) b.

(** A finished block: instructions that are not terminators, then the
    test of the current cell and the branch on it, to two blocks of the
    function other than the entry block. *)
Definition closed_block (nblocks : nat) (b : block) : Prop :=
  exists body n t f,
    b = body ++ branch_code n t f /\ open_block body = true /\
    0 < t < nblocks /\ 0 < f < nblocks.

Record inv (st : state) : Prop := Inv {
  inv_position : head (block_stack st) = Some (position st);
  inv_parallel : length (block_stack st) = S (length (loop_stack st));
  inv_nodup : NoDup (block_stack st);
  inv_bound : forall l, l ∈ block_stack st -> l < length (blocks st);
  inv_below : forall l, l ∈ tail (block_stack st) -> 0 < l;
  inv_loops : forall l, l ∈ loop_stack st -> 0 < l < length (blocks st);
  inv_open : forall l b,
    l ∈ block_stack st -> blocks st !! l = Some b -> open_block b = true;
  inv_closed : forall l b,
    l ∉ block_stack st -> blocks st !! l = Some b ->
    closed_block (length (blocks st)) b
}.

Lemma open_block_app (a b : block) :
  open_block (a ++ b) = open_block a && open_block b.
Proof. apply forallb_app. Qed.

Lemma straight_code_open (ch : ascii) (n : nat) :
  open_block (straight_code ch n) = true.
Proof.
  unfold straight_code.
  repeat match goal with
         | |- context [Ascii.eqb ch ?c] => destruct (Ascii.eqb ch c)
         end; reflexivity.
Qed.

Lemma closed_block_mono (n m : nat) (b : block) :
  n <= m -> closed_block n b -> closed_block m b.
Proof.
  intros Hle (body & k & t & f & -> & Hb & Ht & Hf).
  exists body, k, t, f. repeat split; auto; lia.
Qed.

Lemma inv_initial : inv initial.
Proof.
  split; simpl; auto.
  - apply NoDup_singleton.
  - intros l ->%list_elem_of_singleton. lia.
  - intros l H. by apply elem_of_nil in H.
  - intros l H. by apply elem_of_nil in H.
  - intros l b ->%list_elem_of_singleton [= <-]. reflexivity.
  - intros l b Hl Hb. destruct l; simpl in Hb; [|done].
    exfalso. apply Hl. by apply list_elem_of_singleton.
Qed.

Lemma inv_stack_nonempty (st : state) :
  inv st -> exists rest, block_stack st = position st :: rest.
Proof.
  intros [Hp _ _ _ _ _ _ _].
  destruct (block_stack st) as [|top rest]; [done|].
  injection Hp as ->. by exists rest.
Qed.

Lemma inv_straight (ch : ascii) (st st' : state) :
  is_bracket ch = false -> ch <> newline ->
  inv st -> step ch st = inr st' -> inv st'.
Proof.
  intros Hb Hn Hi Hs. rewrite step_straight in Hs by done.
  injection Hs as <-. destruct Hi as [Hp Hpar Hnd Hbd Hbl Hlp Hop Hcl].
  split; fields; rewrite ?length_alter; auto.
  - intros l b Hl Hlk. rewrite list_lookup_alter in Hlk.
    case_decide as Heq; [|by eauto]. subst l.
    apply fmap_Some in Hlk as (b0 & Hb0 & ->).
    rewrite open_block_app, straight_code_open.
    by rewrite (Hop _ _ Hl Hb0).
  - intros l b Hl Hlk. rewrite list_lookup_alter_ne in Hlk; [by eauto|].
    intros <-. apply Hl. destruct (block_stack st); [done|].
    injection Hp as ->. apply list_elem_of_here.
Qed.

Lemma inv_newline (st st' : state) :
  inv st -> step newline st = inr st' -> inv st'.
Proof.
  intros [Hp Hpar Hnd Hbd Hbl Hlp Hop Hcl] Hs.
  rewrite step_newline in Hs. injection Hs as <-. by split.
Qed.

Lemma inv_open_bracket (st st' : state) :
  inv st -> step "[" st = inr st' -> inv st'.
Proof.
  intros Hi Hs. destruct (inv_stack_nonempty st Hi) as [rest Hst].
  rewrite (step_open st _ rest Hst) in Hs. injection Hs as <-.
  destruct Hi as [Hp Hpar Hnd Hbd Hbl Hlp Hop Hcl].
  rewrite Hst in *. apply NoDup_cons in Hnd as [Hnin Hnd].
  assert (Hpos : position st < length (blocks st)).
  { apply Hbd, list_elem_of_here. }
  assert (Hrest : forall l, l ∈ rest -> l < length (blocks st)).
  { intros l Hl. apply Hbd. by apply list_elem_of_further. }
  split; fields; rewrite ?length_alter, ?length_app; cbn [length tail];
    auto.
  - repeat apply NoDup_cons_2; auto.
    + rewrite not_elem_of_cons. split; [lia|].
      intros H%Hrest. lia.
    + intros H%Hrest. lia.
  - intros l. rewrite !elem_of_cons.
    intros [->|[->|H%Hrest]]; lia.
  - intros l. rewrite elem_of_cons. intros [->|H]; [lia|].
    apply Hbl. by simpl.
  - intros l. rewrite elem_of_cons. intros [->|H%Hlp]; lia.
  - intros l b. rewrite !elem_of_cons. intros Hl Hlk.
    rewrite list_lookup_alter_ne in Hlk.
    2:{ intros <-. destruct Hl as [?|[?|?]]; [lia|lia|done]. }
    destruct Hl as [->|[->|Hl]].
    + rewrite lookup_app_r in Hlk by lia.
      rewrite Nat.sub_diag in Hlk. by injection Hlk as <-.
    + rewrite lookup_app_r in Hlk by lia.
      replace (S (length (blocks st)) - length (blocks st)) with 1 in Hlk
        by lia.
      by injection Hlk as <-.
    + rewrite lookup_app_l in Hlk by auto.
      apply (Hop l b); [by apply list_elem_of_further|done].
  - intros l b. rewrite !not_elem_of_cons. intros (Hl1 & Hl2 & Hl3) Hlk.
    assert (Hlt : l < length (blocks st)).
    { apply lookup_lt_Some in Hlk.
      rewrite length_alter, length_app in Hlk. simpl in Hlk. lia. }
    rewrite list_lookup_alter in Hlk. case_decide as Heq.
    + subst l. rewrite lookup_app_l in Hlk by done.
      apply fmap_Some in Hlk as (b0 & Hb0 & ->).
      exists b0, (names st), (length (blocks st)), (S (length (blocks st))).
      repeat split; try lia.
      apply (Hop (position st) b0); [apply list_elem_of_here|done].
    + rewrite lookup_app_l in Hlk by done.
      apply (closed_block_mono (length (blocks st))); [lia|].
      apply (Hcl l b); [|done]. rewrite not_elem_of_cons. by split.
Qed.

Lemma inv_close_bracket (st st' : state) :
  inv st -> step "]" st = inr st' -> inv st'.
Proof.
  intros Hi Hs. destruct (inv_stack_nonempty st Hi) as [rest Hst].
  destruct Hi as [Hp Hpar Hnd Hbd Hbl Hlp Hop Hcl].
  destruct rest as [|below rest].
  { rewrite step_close_unmatched in Hs; [done|]. rewrite Hst. simpl. lia. }
  destruct (loop_stack st) as [|header loops] eqn:Hls.
  { rewrite Hst in Hpar. simpl in Hpar. lia. }
  rewrite (step_close st _ below header rest loops Hst Hls) in Hs.
  injection Hs as <-. rewrite Hst in *.
  apply NoDup_cons in Hnd as [Hnin Hnd].
  split; fields; rewrite ?length_alter; auto.
  - intros l Hl. apply Hbd. by apply list_elem_of_further.
  - intros l Hl. apply Hbl. simpl. apply list_elem_of_further.
    destruct rest; [by apply elem_of_nil in Hl|]. by simpl in Hl.
  - intros l Hl. apply Hlp. by apply list_elem_of_further.
  - intros l b Hl Hlk. rewrite list_lookup_alter_ne in Hlk.
    + apply (Hop l b); [by apply list_elem_of_further|done].
    + by intros <-.
  - intros l b Hl Hlk. rewrite list_lookup_alter in Hlk.
    case_decide as Heq.
    + subst l.
      apply fmap_Some in Hlk as (b0 & Hb0 & ->).
      exists b0, (names st), header, below.
      repeat split.
      * apply (Hop (position st) b0); [apply list_elem_of_here|done].
      * apply Hlp, list_elem_of_here.
      * apply Hlp, list_elem_of_here.
      * apply Hbl. simpl. apply list_elem_of_here.
      * apply Hbd, list_elem_of_further, list_elem_of_here.
    + apply (Hcl l b); [|done]. rewrite not_elem_of_cons. by split.
Qed.

(** Every character is a newline, a bracket, or handled by the straight
    branch of [step]. *)
Lemma inv_step (ch : ascii) (st st' : state) :
  inv st -> step ch st = inr st' -> inv st'.
Proof.
  intros Hi Hs.
  destruct (Ascii.eqb ch newline) eqn:Hn.
  { apply Ascii.eqb_eq in Hn as ->. by eapply inv_newline. }
  destruct (Ascii.eqb ch "[") eqn:Ho.
  { apply Ascii.eqb_eq in Ho as ->. by eapply inv_open_bracket. }
  destruct (Ascii.eqb ch "]") eqn:Hc.
  { apply Ascii.eqb_eq in Hc as ->. by eapply inv_close_bracket. }
  apply (inv_straight ch st); auto.
  - unfold is_bracket. by rewrite Ho, Hc.
  - by apply Ascii.eqb_neq.
Qed.

Lemma inv_scan (prog : string) (st st' : state) :
  inv st -> scan prog st = inr st' -> inv st'.
Proof.
  revert st. induction prog as [|ch rest IH]; intros st Hi Hs; simpl in Hs.
  - by injection Hs as <-.
  - destruct (step ch st) as [e|st1] eqn:Hst; [done|].
    apply (IH st1); [by eapply inv_step|done].
Qed.

Lemma scan_app (p q : string) (st : state) :
  scan (p ++ q)%string st =
    match scan p st with
    | inl e => inl e
    | inr st' => scan q st'
    end.
Proof.
  revert st. induction p as [|ch p IH]; intros st; simpl; [done|].
  destruct (step ch st); [done|apply IH].
Qed.

(** ** Loops read off the program text *)

(** The loops open after [prog], innermost first, each named by the rank
    of its open bracket among the open brackets of the program; [seen]
    open brackets came before [prog], of which [opened] are still open. *)
Fixpoint open_loops_from (prog : string) (seen : nat) (opened : list nat)
    : list nat :=
  match prog with
  | EmptyString => opened
  | String ch rest =>
      if Ascii.eqb ch "[" then open_loops_from rest (S seen) (seen :: opened)
      else if Ascii.eqb ch "]" then open_loops_from rest seen (tail opened)
      else open_loops_from rest seen opened
  end.

Definition open_loops (prog : string) : list nat :=
  open_loops_from prog 0 [].

(** Nesting depth after [prog], counted from depth [d]. *)
Fixpoint nesting_from (d : nat) (prog : string) : nat :=
  match prog with
  | EmptyString => d
  | String ch rest =>
      if Ascii.eqb ch "[" then nesting_from (S d) rest
      else if Ascii.eqb ch "]" then nesting_from (Nat.pred d) rest
      else nesting_from d rest
  end.

Definition nesting (prog : string) : nat := nesting_from 0 prog.

(** The open bracket of rank [k] appends blocks [1 + 2k] (the loop's header
    and body) and [2 + 2k] (its tail) to the function. *)
Definition header_of (k : nat) : label := 1 + 2 * k.

Lemma open_loops_length (prog : string) (seen : nat) (opened : list nat) :
  length (open_loops_from prog seen opened) = nesting_from (length opened) prog.
Proof.
  revert seen opened.
  induction prog as [|ch rest IH]; intros seen opened; simpl; [done|].
  destruct (Ascii.eqb ch "["); [by rewrite IH|].
  destruct (Ascii.eqb ch "]"); [|by rewrite IH].
  rewrite IH. by destruct opened.
Qed.

Lemma scan_loop_stack (prog : string) (st st' : state) (seen : nat)
    (opened : list nat) :
  inv st ->
  length (blocks st) = 1 + 2 * seen ->
  loop_stack st = map header_of opened ->
  scan prog st = inr st' ->
  loop_stack st' = map header_of (open_loops_from prog seen opened).
Proof.
  revert st seen opened.
  induction prog as [|ch rest IH]; intros st seen opened Hi Hlen Hls Hs;
    simpl in Hs.
  { injection Hs as <-. done. }
  destruct (step ch st) as [e|st1] eqn:Hst; [done|].
  assert (Hi1 : inv st1) by (by eapply inv_step).
  simpl. destruct (Ascii.eqb ch "[") eqn:Ho.
  { apply Ascii.eqb_eq in Ho as ->.
    destruct (inv_stack_nonempty st Hi) as [r Hr].
    rewrite (step_open st _ r Hr) in Hst. injection Hst as <-.
    apply (IH _ (S seen) (seen :: opened) Hi1); simpl.
    - rewrite length_alter, length_app. simpl. lia.
    - rewrite Hls, Hlen. unfold header_of. done.
    - done. }
  destruct (Ascii.eqb ch "]") eqn:Hc.
  { apply Ascii.eqb_eq in Hc as ->.
    destruct (inv_stack_nonempty st Hi) as [r Hr].
    destruct r as [|below r].
    { rewrite step_close_unmatched in Hst; [done|]. rewrite Hr. simpl. lia. }
    destruct (loop_stack st) as [|header loops] eqn:Hl.
    { pose proof (inv_parallel st Hi) as Hp. rewrite Hr, Hl in Hp.
      simpl in Hp. lia. }
    rewrite (step_close st _ below header r loops Hr Hl) in Hst.
    injection Hst as <-.
    apply (IH _ seen (tail opened) Hi1); simpl.
    - by rewrite length_alter.
    - destruct opened; [done|]. simpl in Hls. by injection Hls.
    - done. }
  destruct (Ascii.eqb ch newline) eqn:Hn.
  { apply Ascii.eqb_eq in Hn as ->. rewrite step_newline in Hst.
    injection Hst as <-. by apply (IH _ seen opened Hi1). }
  rewrite step_straight in Hst.
  - injection Hst as <-. apply (IH _ seen opened Hi1); simpl; [|done..].
    by rewrite length_alter.
  - unfold is_bracket. by rewrite Ho, Hc.
  - by apply Ascii.eqb_neq.
Qed.

(** C7. After every prefix of the program that the scan gets through, the
    loop stack is one shorter than the block stack, as long as the loops
    are deep, and lists the headers of the open loops, the innermost on
    top; the close bracket met next branches back to that top header. *)
Theorem loop_stack_parallel (prefix : string) (st : state) :
  scan prefix initial = inr st ->
  length (block_stack st) = S (length (loop_stack st)) /\
  length (loop_stack st) = nesting prefix /\
  loop_stack st = map header_of (open_loops prefix) /\
  (forall header loops, loop_stack st = header :: loops ->
   exists st' below,
     step "]" st = inr st' /\
     blocks st' =
       alter (fun b => b ++ branch_code (names st) header below)
             (position st) (blocks st) /\
     loop_stack st' = loops).
Proof.
  intros Hs.
  assert (Hi : inv st) by (eapply inv_scan; [apply inv_initial|done]).
  assert (Hl : loop_stack st = map header_of (open_loops prefix)).
  { by apply (scan_loop_stack prefix initial st 0 [] inv_initial). }
  split; [apply (inv_parallel st Hi)|].
  split; [|split; [done|]].
  - rewrite Hl, length_map. apply open_loops_length.
  - intros header loops Hh.
    destruct (inv_stack_nonempty st Hi) as [r Hr].
    destruct r as [|below r].
    { pose proof (inv_parallel st Hi) as Hp. rewrite Hr, Hh in Hp.
      simpl in Hp. lia. }
    eexists _, below.
    by rewrite (step_close st _ below header r loops Hr Hh).
Qed.

Lemma loop_stack_parallel_witness :
  exists st, scan "+[>[-" initial = inr st /\
    length (block_stack st) = 3 /\ loop_stack st = [3; 1].
Proof.
  run_scan "+[>[-" st Hs Hv. exists st. split; [reflexivity|].
  destruct (loop_stack_parallel "+[>[-" st Hs) as (H1 & H2 & H3 & _).
  rewrite H1, H3. split; vm_compute; reflexivity.
Defined.

(** ** The finished function *)

Lemma open_block_rev (b : block) : open_block (rev b) = open_block b.
Proof.
  unfold open_block. apply eq_true_iff_eq.
  rewrite !forallb_forall.
  split; intros H i Hi; apply H; [by apply in_rev in Hi|by apply in_rev].
Qed.

Lemma block_ok_snoc (body : block) (t : instr) :
  open_block body = true -> is_terminator t = true ->
  block_ok (body ++ [t]) = true.
Proof.
  intros Hb Ht. unfold block_ok. rewrite rev_app_distr. simpl.
  rewrite Ht. simpl. fold (open_block (rev body)). by rewrite open_block_rev.
Qed.

(** The test of the current cell, without the branch on it. *)
Definition test_code (n : nat) : list instr :=
  ptr_code n ++ [Load (2 + n) i8 (cell_ptr n);
                 ICmpNe (3 + n) (Value (2 + n) i8) ZERO_i8].

Lemma branch_code_snoc (n : nat) (t f : label) :
  branch_code n t f =
    test_code n ++ [CBranch (Value (3 + n) (IntType 1)) t f].
Proof. reflexivity. Qed.

Lemma closed_block_ok (n : nat) (b : block) :
  closed_block n b -> block_ok b = true.
Proof.
  intros (body & k & t & f & -> & Hb & _ & _).
  rewrite branch_code_snoc, app_assoc.
  apply block_ok_snoc; [|done].
  rewrite open_block_app, Hb. reflexivity.
Qed.

(** The blocks once [ret_void] has been emitted: the one left on the
    block stack now ends in [ret void], the others are as they were. *)
Lemma ret_void_blocks (st : state) (last l : label) (b : block) :
  inv st -> block_stack st = [last] ->
  blocks (ret_void st) !! l = Some b ->
  block_ok b = true /\
  if decide (l = last)
  then exists body, blocks st !! last = Some body /\
                    b = body ++ [RetVoid] /\ open_block body = true
  else blocks st !! l = Some b /\ closed_block (length (blocks st)) b.
Proof.
  intros Hi Hst Hlk.
  pose proof (inv_position st Hi) as Hp. rewrite Hst in Hp.
  injection Hp as Hp. unfold ret_void, emit, set_blocks in Hlk. fields.
  rewrite <- Hp in Hlk. rewrite list_lookup_alter in Hlk.
  case_decide as Heq.
  - subst l. rewrite decide_True by done.
    apply fmap_Some in Hlk as (body & Hb & ->).
    assert (Ho : open_block body = true).
    { apply (inv_open st Hi last); [|done]. rewrite Hst.
      apply list_elem_of_here. }
    split; [by apply block_ok_snoc|]. by exists body.
  - rewrite decide_False by done.
    assert (Hc : closed_block (length (blocks st)) b).
    { apply (inv_closed st Hi l); [|done]. rewrite Hst.
      by intros ->%list_elem_of_singleton. }
    split; [by eapply closed_block_ok|done].
Qed.

Lemma function_ok_intro (name : string) (t : ty) (bs : list block) :
  bs <> [] -> forallb block_ok bs = true ->
  function_ok (Function name t bs) = true.
Proof.
  unfold function_ok. cbn [fn_blocks]. intros Hne H. by destruct bs.
Qed.

Lemma build_module_ok (st : state) (last : label) :
  inv st -> block_stack st = [last] ->
  forallb global_ok (build_module (ret_void st)) = true.
Proof.
  intros Hi Hst. unfold build_module. cbn [forallb global_ok].
  rewrite function_ok_intro; [reflexivity| |].
  - intros Ha. apply (f_equal length) in Ha.
    unfold ret_void, emit, set_blocks in Ha. fields.
    rewrite length_alter in Ha.
    pose proof (inv_bound st Hi last) as Hlt. rewrite Hst in Hlt.
    specialize (Hlt (list_elem_of_here _ _)). cbn [length] in Ha. lia.
  - apply forallb_forall. intros b Hb.
    apply list_elem_of_In, list_elem_of_lookup in Hb as [l Hl].
    by destruct (ret_void_blocks st last l b Hi Hst Hl).
Qed.

Lemma compile_of_scan (prog : string) (st : state) (last : label) :
  scan prog initial = inr st -> block_stack st = [last] ->
  compile_bf prog = inr (build_module (ret_void st)).
Proof.
  intros Hs Hst. unfold compile_bf, parse_assembly. rewrite Hs, Hst.
  cbn [length Nat.eqb negb].
  rewrite (build_module_ok st last); [done| |done].
  eapply inv_scan; [apply inv_initial|done].
Qed.

Lemma scan_of_compile (prog : string) (md : module) :
  compile_bf prog = inr md ->
  exists st last, scan prog initial = inr st /\ block_stack st = [last] /\
                  md = build_module (ret_void st).
Proof.
  unfold compile_bf, parse_assembly. intros H.
  destruct (scan prog initial) as [e|st] eqn:Hs; [done|].
  destruct (block_stack st) as [|last [|? ?]] eqn:Hst;
    cbn [length Nat.eqb negb] in H; try done.
  exists st, last. repeat split; [done|].
  destruct (forallb global_ok _); [by injection H|done].
Qed.

(** C10. The module text is always accepted when read back, and in the
    function of a compiled program every block holds one terminator, its
    last instruction: [ret void] in the block left on the block stack, and
    in every other block the branch on the test of the current cell. *)
Theorem every_block_terminated (prog : string) :
  compile_bf prog <> inl RuntimeError /\
  forall md, compile_bf prog = inr md ->
    exists st last,
      scan prog initial = inr st /\ block_stack st = [last] /\
      md = build_module (ret_void st) /\
      length (blocks (ret_void st)) = length (blocks st) /\
      forall l b, blocks (ret_void st) !! l = Some b ->
        block_ok b = true /\
        if decide (l = last)
        then exists body, blocks st !! last = Some body /\
                          b = body ++ [RetVoid] /\ open_block body = true
        else blocks st !! l = Some b /\
             closed_block (length (blocks st)) b.
Proof.
  split.
  - unfold compile_bf, parse_assembly.
    destruct (scan prog initial) as [e|st] eqn:Hs.
    { intros [= ->]. by apply scan_no_runtime_error in Hs. }
    destruct (block_stack st) as [|last [|? ?]] eqn:Hst;
      cbn [length Nat.eqb negb]; try done.
    rewrite (build_module_ok st last); [done| |done].
    eapply inv_scan; [apply inv_initial|done].
  - intros md (st & last & Hs & Hst & ->)%scan_of_compile.
    exists st, last. repeat split; try done.
    + unfold ret_void, emit, set_blocks. fields. by rewrite length_alter.
    + eapply ret_void_blocks; eauto.
      eapply inv_scan; [apply inv_initial|done].
    + eapply ret_void_blocks; eauto.
      eapply inv_scan; [apply inv_initial|done].
Qed.

(** ** Balanced programs *)

(** Brackets balance: reading left to right from depth [d], no close
    bracket comes at depth 0 and the depth is 0 at the end. *)
Fixpoint balanced_from (d : nat) (prog : string) : bool :=
  match prog with
  | EmptyString => Nat.eqb d 0
  | String ch rest =>
      if Ascii.eqb ch "[" then balanced_from (S d) rest
      else if Ascii.eqb ch "]" then
        match d with
        | O => false
        | S d' => balanced_from d' rest
        end
      else balanced_from d rest
  end.

Definition balanced (prog : string) : bool := balanced_from 0 prog.

Lemma scan_balanced (prog : string) (st : state) (d : nat) :
  inv st -> length (block_stack st) = S d ->
  balanced_from d prog = true ->
  exists st', scan prog st = inr st' /\ length (block_stack st') = 1.
Proof.
  revert st d.
  induction prog as [|ch rest IH]; intros st d Hi Hlen Hb; simpl in *.
  { apply Nat.eqb_eq in Hb as ->. by exists st. }
  destruct (inv_stack_nonempty st Hi) as [r Hr].
  destruct (Ascii.eqb ch "[") eqn:Ho.
  { apply Ascii.eqb_eq in Ho as ->.
    pose proof (step_open st _ r Hr) as Hst. rewrite Hst.
    apply (IH _ (S d)); [by eapply inv_step| |done].
    simpl. rewrite Hr in Hlen. simpl in Hlen. lia. }
  destruct (Ascii.eqb ch "]") eqn:Hc.
  { apply Ascii.eqb_eq in Hc as ->. destruct d as [|d]; [done|].
    destruct r as [|below r]; [by rewrite Hr in Hlen|].
    destruct (loop_stack st) as [|header loops] eqn:Hl.
    { pose proof (inv_parallel st Hi) as Hp. rewrite Hr, Hl in Hp.
      simpl in Hp. lia. }
    pose proof (step_close st _ below header r loops Hr Hl) as Hst.
    rewrite Hst. apply (IH _ d); [by eapply inv_step| |done].
    simpl. rewrite Hr in Hlen. simpl in Hlen. lia. }
  destruct (Ascii.eqb ch newline) eqn:Hn.
  { apply Ascii.eqb_eq in Hn as ->. rewrite step_newline.
    apply (IH _ d); [|done..].
    eapply inv_newline; [done|apply step_newline]. }
  assert (Hst : is_bracket ch = false) by (unfold is_bracket; by rewrite Ho, Hc).
  apply Ascii.eqb_neq in Hn.
  pose proof (step_straight ch st Hst Hn) as Hstep. rewrite Hstep.
  apply (IH _ d); [by eapply inv_step|done..].
Qed.

(** C1. A program whose brackets balance compiles: the scan ends with one
    block on the block stack, the builder is positioned at it, and
    [ret void] is appended to it. *)
Theorem balanced_compiles (prog : string) :
  balanced prog = true ->
  exists st last body,
    scan prog initial = inr st /\
    block_stack st = [last] /\ position st = last /\
    compile_bf prog = inr (build_module (ret_void st)) /\
    blocks st !! last = Some body /\
    blocks (ret_void st) !! last = Some (body ++ [RetVoid]).
Proof.
  intros Hb.
  destruct (scan_balanced prog initial 0 inv_initial eq_refl Hb)
    as (st & Hs & Hlen).
  assert (Hi : inv st) by (eapply inv_scan; [apply inv_initial|done]).
  destruct (inv_stack_nonempty st Hi) as [r Hr].
  destruct r; [|by rewrite Hr in Hlen].
  assert (Hlt : position st < length (blocks st)).
  { apply (inv_bound st Hi). rewrite Hr. apply list_elem_of_here. }
  apply lookup_lt_is_Some_2 in Hlt as [body Hbody].
  exists st, (position st), body. repeat split; try done.
  - by apply (compile_of_scan prog st (position st)).
  - unfold ret_void, emit, set_blocks. fields.
    rewrite list_lookup_alter_eq. apply fmap_Some. by exists body.
Qed.

Lemma balanced_compiles_witness :
  exists st last body,
    scan "+[+[-]-]" initial = inr st /\
    block_stack st = [last] /\ position st = last /\
    compile_bf "+[+[-]-]" = inr (build_module (ret_void st)) /\
    blocks st !! last = Some body /\
    blocks (ret_void st) !! last = Some (body ++ [RetVoid]).
Proof.
  apply (balanced_compiles "+[+[-]-]"). vm_compute. reflexivity.
Defined.

Lemma every_block_terminated_witness :
  exists md st last,
    compile_bf "+[-]" = inr md /\
    scan "+[-]" initial = inr st /\ block_stack st = [last] /\
    forall l b, blocks (ret_void st) !! l = Some b -> block_ok b = true.
Proof.
  destruct (every_block_terminated "+[-]") as [_ H].
  destruct (compile_bf "+[-]") as [e|md] eqn:Hc; [by vm_compute in Hc|].
  destruct (H md eq_refl) as (st & last & Hs & Hst & Hmd & _ & Hall).
  exists md, st, last.
  split; [reflexivity|]. split; [exact Hs|]. split; [exact Hst|].
  intros l b Hl. exact (proj1 (Hall l b Hl)).
Defined.

(** ** Positions in the source text *)

(** Line and column after [prog], counted from line [l], column [c]: a
    newline starts the next line at column 1, any other character moves
    one column to the right. *)
Fixpoint cursor_from (l c : nat) (prog : string) : nat * nat :=
  match prog with
  | EmptyString => (l, c)
  | String ch rest =>
      if Ascii.eqb ch newline then cursor_from (l + 1) 1 rest
      else cursor_from l (c + 1) rest
  end.

Definition cursor (prog : string) : nat * nat := cursor_from 1 1 prog.

Lemma cursor_from_app (p q : string) (l c : nat) :
  cursor_from l c (p ++ q)%string =
    cursor_from (fst (cursor_from l c p)) (snd (cursor_from l c p)) q.
Proof.
  revert l c. induction p as [|ch p IH]; intros l c; simpl; [done|].
  destruct (Ascii.eqb ch newline); apply IH.
Qed.

Lemma step_cursor (ch : ascii) (st st' : state) :
  step ch st = inr st' ->
  (line st', col st') = cursor_from (line st) (col st) (String ch EmptyString).
Proof.
  cbn [cursor_from].
  destruct (step_cases ch st)
    as [-> | Hb Hn | top rest -> Hs | -> Hs
        | top below rest header loops -> Hs Hl | -> Hs | -> Hs Hl];
    intros H; try done; injection H as <-; fields; try reflexivity.
  apply Ascii.eqb_neq in Hn. by rewrite Hn.
Qed.

Lemma scan_cursor (prog : string) (st st' : state) :
  scan prog st = inr st' ->
  (line st', col st') = cursor_from (line st) (col st) prog.
Proof.
  revert st. induction prog as [|ch rest IH]; intros st Hs;
    cbn [scan cursor_from] in *.
  { by injection Hs as <-. }
  destruct (step ch st) as [e|st1] eqn:Hst; [done|].
  rewrite (IH _ Hs). apply step_cursor in Hst. cbn [cursor_from] in Hst.
  destruct (Ascii.eqb ch newline); by injection Hst as -> ->.
Qed.

(** C2. A close bracket met while the block stack holds one block stops
    the compilation there, whatever follows, with the error for an
    unmatched close bracket at the line and column the scan has reached,
    the bracket included; for the program "]" that is line 1, column 2. *)
Theorem unmatched_close_fails (prefix rest : string) (st : state) :
  scan prefix initial = inr st ->
  length (block_stack st) = 1 ->
  compile_bf (prefix ++ String "]" rest) =
    inl (ValueError (line st) (col st + 1) unmatched_close) /\
  (line st, col st + 1) = cursor (prefix ++ "]") /\
  compile_bf "]" = inl (ValueError 1 2 unmatched_close) /\
  message (ValueError 1 2 unmatched_close) = "1:2: unmatched ]".
Proof.
  intros Hs Hlen. split; [|split; [|split; vm_compute; reflexivity]].
  - unfold compile_bf. rewrite scan_app, Hs. cbn [scan].
    rewrite step_close_unmatched; [done|lia].
  - unfold cursor. rewrite cursor_from_app.
    pose proof (scan_cursor prefix initial st Hs) as Hc.
    change (cursor_from (line initial) (col initial) prefix)
      with (cursor_from 1 1 prefix) in Hc.
    rewrite <- Hc. reflexivity.
Qed.

Lemma unmatched_close_fails_witness :
  compile_bf ("+[-]" ++ String "]" "++") =
    inl (ValueError 1 6 unmatched_close).
Proof.
  run_scan "+[-]" st Hs Hv.
  assert (Hlen : length (block_stack st) = 1) by (by rewrite <- Hv).
  rewrite (proj1 (unmatched_close_fails "+[-]" "++" st Hs Hlen)).
  by rewrite <- Hv.
Defined.

(** C3. When the scan ends with more than one block on the block stack,
    the compilation fails with the error for an unmatched open bracket at
    the line and column of the end of the text; for the program "[" that
    is line 1, column 2. *)
Theorem unmatched_open_fails (prog : string) (st : state) :
  scan prog initial = inr st ->
  1 < length (block_stack st) ->
  compile_bf prog = inl (ValueError (line st) (col st) unmatched_open) /\
  (line st, col st) = cursor prog /\
  compile_bf "[" = inl (ValueError 1 2 unmatched_open) /\
  message (ValueError 1 2 unmatched_open) = "1:2: unmatched [".
Proof.
  intros Hs Hlen. split; [|split; [|split; vm_compute; reflexivity]].
  - unfold compile_bf. rewrite Hs.
    destruct (Nat.eqb_spec (length (block_stack st)) 1); [lia|done].
  - apply (scan_cursor prog initial st Hs).
Qed.

Lemma unmatched_open_fails_witness :
  compile_bf "+[>[-]" = inl (ValueError 1 7 unmatched_open).
Proof.
  run_scan "+[>[-]" st Hs Hv.
  assert (Hlen : 1 < length (block_stack st)).
  { rewrite <- Hv. cbn [block_stack length]. lia. }
  rewrite (proj1 (unmatched_open_fails "+[>[-]" st Hs Hlen)).
  by rewrite <- Hv.
Defined.

(** ** Comment characters *)

Definition is_instruction (ch : ascii) : bool :=
  Ascii.eqb ch ">" || Ascii.eqb ch "<" || Ascii.eqb ch "+" ||
  Ascii.eqb ch "-" || Ascii.eqb ch "." || Ascii.eqb ch "," ||
  Ascii.eqb ch "[" || Ascii.eqb ch "]".

(** The program with every comment character removed. *)
Fixpoint strip (prog : string) : string :=
  match prog with
  | EmptyString => EmptyString
  | String ch rest =>
      if is_instruction ch then String ch (strip rest) else strip rest
  end.

(** Two states that differ in line and column at most. *)
Definition same_code (a b : state) : Prop :=
  blocks a = blocks b /\ names a = names b /\ position a = position b /\
  block_stack a = block_stack b /\ loop_stack a = loop_stack b.

(** An exception without its position. *)
Definition erase_exn (e : exn) : exn :=
  match e with
  | ValueError _ _ what => ValueError 0 0 what
  | _ => e
  end.

Definition erase {A : Type} (r : exn + A) : exn + A :=
  match r with
  | inl e => inl (erase_exn e)
  | inr a => inr a
  end.

Definition agree (r1 r2 : exn + state) : Prop :=
  match r1, r2 with
  | inl e1, inl e2 => erase_exn e1 = erase_exn e2
  | inr a, inr b => same_code a b
  | _, _ => False
  end.

Lemma same_code_refl (a : state) : same_code a a.
Proof. by repeat split. Qed.

Lemma same_code_trans (a b c : state) :
  same_code a b -> same_code b c -> same_code a c.
Proof.
  intros (? & ? & ? & ? & ?) (? & ? & ? & ? & ?).
  repeat split; congruence.
Qed.

Lemma step_comment (ch : ascii) (st : state) :
  is_instruction ch = false ->
  exists st', step ch st = inr st' /\ same_code st st'.
Proof.
  unfold is_instruction. intros H.
  repeat (apply orb_false_elim in H as [H ?]).
  destruct (Ascii.eqb_spec ch newline) as [->|Hn].
  { rewrite step_newline. eexists. split; [reflexivity|]. by repeat split. }
  rewrite step_straight; [|unfold is_bracket; by apply orb_false_intro|done].
  eexists. split; [reflexivity|]. repeat split; fields;
    unfold straight_code, straight_names;
    repeat match goal with
           | E : Ascii.eqb ch _ = false |- _ => rewrite E; clear E
           end; [|reflexivity].
  symmetry. apply list_alter_id. intros b. apply app_nil_r.
Qed.

Lemma step_agree (ch : ascii) (a b : state) :
  same_code a b -> agree (step ch a) (step ch b).
Proof.
  destruct a as [bl n p bs ls l1 c1], b as [bl' n' p' bs' ls' l2 c2].
  intros (Hb & Hn & Hp & Hbs & Hls). fields. subst. unfold agree.
  destruct (step_cases ch (State bl' n' p' bs' ls' l1 c1))
    as [-> | Hb Hn | top rest -> Hs | -> Hs
        | top below rest header loops -> Hs Hl | -> Hs | -> Hs Hl]; fields.
  - rewrite step_newline. by repeat split.
  - rewrite step_straight by done. by repeat split.
  - rewrite (step_open _ top rest) by done. by repeat split.
  - by rewrite step_open_empty.
  - rewrite (step_close _ top below header rest loops) by done.
    by repeat split.
  - by rewrite step_close_unmatched.
  - by rewrite step_close_no_loop.
Qed.

Lemma scan_agree (prog : string) (a b : state) :
  same_code a b -> agree (scan prog a) (scan (strip prog) b).
Proof.
  revert a b. induction prog as [|ch rest IH]; intros a b Hab;
    cbn [scan strip].
  { done. }
  destruct (is_instruction ch) eqn:Hi.
  - cbn [scan]. pose proof (step_agree ch a b Hab) as Hs.
    destruct (step ch a) as [e1|a1], (step ch b) as [e2|b1];
      unfold agree in Hs; try done.
    by apply IH.
  - destruct (step_comment ch a Hi) as (a1 & -> & Ha).
    apply IH. destruct Ha as (? & ? & ? & ? & ?), Hab as (? & ? & ? & ? & ?).
    repeat split; congruence.
Qed.

Lemma compile_strip (prog : string) :
  erase (compile_bf prog) = erase (compile_bf (strip prog)).
Proof.
  unfold compile_bf.
  pose proof (scan_agree prog initial initial (same_code_refl _)) as H.
  destruct (scan prog initial) as [e1|a], (scan (strip prog) initial)
    as [e2|b]; unfold agree in H; try done.
  { unfold erase. by rewrite H. }
  destruct H as (Hb & Hn & Hp & Hbs & Hls). rewrite Hbs.
  destruct (negb _); [done|].
  unfold build_module, ret_void, emit, set_blocks. fields.
  by rewrite Hb, Hp.
Qed.

(** C8. A character that is not one of the eight instructions never makes
    [step] fail and leaves everything but line and column as it was; two
    programs that differ in such characters only compile to the same
    module, or fail with the same error at positions that may differ. *)
Theorem comments_ignored :
  (forall ch st, is_instruction ch = false ->
     exists st', step ch st = inr st' /\ same_code st st') /\
  (forall p q, strip p = strip q ->
     erase (compile_bf p) = erase (compile_bf q)) /\
  (forall p q md, strip p = strip q ->
     compile_bf p = inr md -> compile_bf q = inr md).
Proof.
  split; [exact step_comment|].
  assert (H : forall p q, strip p = strip q ->
                erase (compile_bf p) = erase (compile_bf q)).
  { intros p q Hpq. by rewrite (compile_strip p), (compile_strip q), Hpq. }
  split; [exact H|].
  intros p q md Hpq Hp. specialize (H p q Hpq). rewrite Hp in H.
  destruct (compile_bf q); simpl in H; [done|]. by injection H as <-.
Qed.

Lemma comments_ignored_witness :
  erase (compile_bf "+ [ - ] x") = erase (compile_bf "+[-]") /\
  erase (compile_bf (String newline "]")) = erase (compile_bf "]").
Proof.
  destruct comments_ignored as (_ & H & _).
  split; apply H; vm_compute; reflexivity.
Defined.

(** ** Running straight-line code *)

Section Straight.

Local Open Scope Z_scope.

Variable call_function :
  string -> list Sem.val -> Sem.machine ->
  option (option Sem.val * Sem.machine).

(** Instructions that are not terminators, one after the other. *)
Fixpoint exec_code (code : list instr) (e : Sem.env) (m : Sem.machine)
    : option (Sem.env * Sem.machine) :=
  match code with
  | [] => Some (e, m)
  | i :: rest =>
      match Sem.exec_instr call_function i e m with
      | Some (e', m') => exec_code rest e' m'
      | None => None
      end
  end.

Lemma exec_code_app (c1 c2 : list instr) (e : Sem.env) (m : Sem.machine) :
  exec_code (c1 ++ c2) e m =
    match exec_code c1 e m with
    | Some (e', m') => exec_code c2 e' m'
    | None => None
    end.
Proof.
  revert e m. induction c1 as [|i c1 IH]; intros e m; simpl; [done|].
  destruct (Sem.exec_instr call_function i e m) as [[e' m']|]; [|done].
  apply IH.
Qed.

Lemma exec_block_open (code rest : list instr) (e : Sem.env)
    (m : Sem.machine) :
  open_block code = true ->
  Sem.exec_block call_function (code ++ rest) e m =
    match exec_code code e m with
    | Some (e', m') => Sem.exec_block call_function rest e' m'
    | None => None
    end.
Proof.
  revert e m. induction code as [|i code IH]; intros e m Ho; [done|].
  cbn [open_block forallb] in Ho. apply andb_prop in Ho as [Hi Ho].
  rewrite <- app_comm_cons. cbn [exec_code].
  destruct i; try discriminate Hi; cbn [Sem.exec_block];
    (destruct (Sem.exec_instr call_function _ e m) as [[e' m']|];
     [by apply IH|done]).
Qed.

End Straight.

(** ** What the emitted instructions do *)

Section Instructions.

Local Open Scope Z_scope.

Variable call_function :
  string -> list Sem.val -> Sem.machine ->
  option (option Sem.val * Sem.machine).

Local Abbreviation exec := (Sem.exec_instr call_function).

Lemma eval_bind_eq (n : nat) (v : Sem.val) (e : Sem.env) (t : ty) :
  Sem.eval (Sem.bind n v e) (Value n t) = Some v.
Proof.
  unfold Sem.bind, Sem.eval. cbn [Sem.regs]. apply lookup_insert_eq.
Qed.

Lemma eval_bind_ne (n k : nat) (v : Sem.val) (e : Sem.env) (t : ty) :
  n <> k ->
  Sem.eval (Sem.bind n v e) (Value k t) = Sem.eval e (Value k t).
Proof.
  intros. unfold Sem.bind, Sem.eval. cbn [Sem.regs].
  by apply lookup_insert_ne.
Qed.

Lemma exec_load_index (n : nat) (e : Sem.env) (m : Sem.machine) :
  exec (Load n i32 g_index) e m =
    Some (Sem.bind n (Sem.VInt (Sem.index m)) e, m).
Proof. reflexivity. Qed.

Lemma exec_store_index (v : operand) (z : Z) (e : Sem.env)
    (m : Sem.machine) :
  Sem.eval e v = Some (Sem.VInt z) -> type_of v = i32 ->
  exec (Store v g_index) e m =
    Some (e, Sem.Machine (Sem.memory m) z (Sem.host m)).
Proof.
  intros Hv Ht. unfold Sem.exec_instr, Sem.eval_int. rewrite Hv, Ht.
  reflexivity.
Qed.

Lemma exec_add (n : nat) (t : ty) (a b : operand) (x y : Z) (e : Sem.env)
    (m : Sem.machine) :
  Sem.eval e a = Some (Sem.VInt x) -> Sem.eval e b = Some (Sem.VInt y) ->
  exec (Add n t a b) e m =
    Some (Sem.bind n (Sem.VInt (Sem.wrap t (x + y))) e, m).
Proof.
  intros Ha Hb. unfold Sem.exec_instr, Sem.eval_int. rewrite Ha, Hb.
  reflexivity.
Qed.

Lemma exec_sub (n : nat) (t : ty) (a b : operand) (x y : Z) (e : Sem.env)
    (m : Sem.machine) :
  Sem.eval e a = Some (Sem.VInt x) -> Sem.eval e b = Some (Sem.VInt y) ->
  exec (Sub n t a b) e m =
    Some (Sem.bind n (Sem.VInt (Sem.wrap t (x - y))) e, m).
Proof.
  intros Ha Hb. unfold Sem.exec_instr, Sem.eval_int. rewrite Ha, Hb.
  reflexivity.
Qed.

Lemma exec_and (n : nat) (t : ty) (a b : operand) (x y : Z) (e : Sem.env)
    (m : Sem.machine) :
  Sem.eval e a = Some (Sem.VInt x) -> Sem.eval e b = Some (Sem.VInt y) ->
  exec (And n t a b) e m =
    Some (Sem.bind n (Sem.VInt (Z.land x y)) e, m).
Proof.
  intros Ha Hb. unfold Sem.exec_instr, Sem.eval_int. rewrite Ha, Hb.
  reflexivity.
Qed.

(** The address of the current cell: for an index below 2^31 the
    offset into [memory] is the index itself. *)
Lemma exec_gep_cell (n k : nat) (i : Z) (e : Sem.env) (m : Sem.machine) :
  Sem.eval e (Value k i32) = Some (Sem.VInt i) ->
  0 <= i < 2 ^ 31 ->
  exec (GEP n (PointerType i8) g_memory [ZERO_i32; Value k i32]) e m =
    Some (Sem.bind n (Sem.VPtr "memory" i) e, m).
Proof.
  intros Hk Hi. unfold Sem.exec_instr.
  change (Sem.eval e g_memory) with (Some (Sem.VPtr "memory" 0)).
  unfold Sem.gep_offset, Sem.eval_int. rewrite Hk.
  change (Sem.eval e ZERO_i32) with (Some (Sem.VInt 0)).
  cbn [mbind option_bind type_of g_memory gep_step MEMORY_TYPE
       ZERO_i32 Sem.sizeof i8 i32].
  repeat f_equal. unfold Sem.signed.
  change (Sem.bits i8) with 8. change (Sem.bits i32) with 32.
  change (0 <? 2 ^ (8 - 1)) with true. change (8 `div` 8) with 1.
  destruct (Z.ltb_spec i (2 ^ (32 - 1))) as [_|Hge]; lia.
Qed.

Lemma exec_load_cell (n : nat) (p : operand) (i : Z) (e : Sem.env)
    (m : Sem.machine) :
  Sem.eval e p = Some (Sem.VPtr "memory" i) ->
  0 <= i < MEMORY_SIZE ->
  exec (Load n i8 p) e m =
    Some (Sem.bind n (Sem.VInt (Sem.memory m i)) e, m).
Proof.
  intros Hp Hi. unfold Sem.exec_instr. rewrite Hp. unfold Sem.read.
  change (String.eqb "memory" "index") with false.
  change (String.eqb "memory" "memory") with true.
  cbv iota.
  destruct (Z.leb_spec 0 i); [|lia].
  destruct (Z.ltb_spec i MEMORY_SIZE); [|lia]. reflexivity.
Qed.

Lemma exec_store_cell (v p : operand) (z i : Z) (e : Sem.env)
    (m : Sem.machine) :
  Sem.eval e v = Some (Sem.VInt z) -> type_of v = i8 ->
  Sem.eval e p = Some (Sem.VPtr "memory" i) ->
  0 <= i < MEMORY_SIZE ->
  exec (Store v p) e m =
    Some (e, Sem.Machine
               (fun k => if k =? i then z else Sem.memory m k)
               (Sem.index m) (Sem.host m)).
Proof.
  intros Hv Ht Hp Hi. unfold Sem.exec_instr, Sem.eval_int.
  rewrite Hv, Hp, Ht. unfold Sem.write.
  change (String.eqb "memory" "index") with false.
  change (String.eqb "memory" "memory") with true.
  cbv iota.
  destruct (Z.leb_spec 0 i); [|lia].
  destruct (Z.ltb_spec i MEMORY_SIZE); [|lia]. reflexivity.
Qed.

End Instructions.

(** ** Calls into the thunks *)

Section Calls.

Local Open Scope Z_scope.

(** The module holds the two thunks that [compile_bf] creates. *)
Definition has_thunks (md : module) : Prop :=
  Sem.lookup_function md "putc"
    = Some (create_thunk putc_type PUTC_WRAPPER "putc") /\
  Sem.lookup_function md "getc"
    = Some (create_thunk getc_type GETC_WRAPPER "getc").

Lemma build_module_thunks (st : state) : has_thunks (build_module st).
Proof. split; reflexivity. Qed.

Variable md : module.
Hypothesis thunks : has_thunks md.

Lemma call_putc (v : Z) (m : Sem.machine) :
  Sem.call_thunk md "putc" [Sem.VInt v] m =
    Some (None,
          Sem.set_host
            (snd (Host.putc (Host.from_c_int8 v) (Sem.host m))) m).
Proof.
  unfold Sem.call_thunk. rewrite (proj1 thunks). reflexivity.
Qed.

Lemma call_getc (m : Sem.machine) :
  Sem.call_thunk md "getc" [] m = None.
Proof.
  unfold Sem.call_thunk. rewrite (proj2 thunks).
  destruct m as [mem idx [input buffered output]].
  destruct input; reflexivity.
Qed.

Lemma exec_call_putc (n k : nat) (v : Z) (e : Sem.env) (m : Sem.machine) :
  Sem.eval e (Value k i8) = Some (Sem.VInt v) ->
  Sem.exec_instr (Sem.call_thunk md)
      (Call n VoidType f_putc [Value k i8]) e m =
    Some (e, Sem.set_host
               (snd (Host.putc (Host.from_c_int8 v) (Sem.host m))) m).
Proof.
  intros Hv. unfold Sem.exec_instr.
  change (Sem.eval e f_putc) with (Some (Sem.VFunc "putc")).
  cbn [mbind option_bind mapM]. rewrite Hv.
  cbn [mbind option_bind mret option_ret fmap option_fmap option_map
       Sem.exec_call].
  rewrite call_putc. reflexivity.
Qed.

Lemma exec_call_getc (n : nat) (e : Sem.env) (m : Sem.machine) :
  Sem.exec_instr (Sem.call_thunk md) (Call n i8 f_getc []) e m = None.
Proof.
  unfold Sem.exec_instr.
  change (Sem.eval e f_getc) with (Some (Sem.VFunc "getc")).
  cbn [mbind option_bind mapM mret option_ret Sem.exec_call].
  rewrite call_getc. reflexivity.
Qed.

End Calls.

(** ** Straight-line programs *)

Section Denotation.

Local Open Scope Z_scope.

(** The index addresses a cell of the array. *)
Definition in_range (m : Sem.machine) : Prop :=
  0 <= Sem.index m < MEMORY_SIZE.

Definition set_cell (m : Sem.machine) (v : Z) : Sem.machine :=
  Sem.Machine (fun k => if k =? Sem.index m then v else Sem.memory m k)
              (Sem.index m) (Sem.host m).

Definition set_index (m : Sem.machine) (i : Z) : Sem.machine :=
  Sem.Machine (Sem.memory m) i (Sem.host m).

Definition current (m : Sem.machine) : Z := Sem.memory m (Sem.index m).

(** What the instructions emitted for one character do to the machine;
    [None] where their behaviour is not defined. *)
Definition effect (ch : ascii) (m : Sem.machine) : option Sem.machine :=
  if Ascii.eqb ch "." then
    Some (Sem.set_host
            (snd (Host.putc (Host.from_c_int8 (current m)) (Sem.host m))) m)
  else if Ascii.eqb ch "," then None
  else if Ascii.eqb ch ">" then
    Some (set_index m (Z.land (Sem.index m + 1) (MEMORY_SIZE - 1)))
  else if Ascii.eqb ch "<" then
    Some (set_index m (Z.land (Sem.index m - 1) (MEMORY_SIZE - 1)))
  else if Ascii.eqb ch "+" then
    Some (set_cell m ((current m + 1) mod 256))
  else if Ascii.eqb ch "-" then
    Some (set_cell m ((current m - 1) mod 256))
  else Some m.

Fixpoint effects (prog : string) (m : Sem.machine) : option Sem.machine :=
  match prog with
  | EmptyString => Some m
  | String ch rest =>
      match effect ch m with
      | Some m' => effects rest m'
      | None => None
      end
  end.

Lemma land_mask (x : Z) : Z.land x (MEMORY_SIZE - 1) = x mod MEMORY_SIZE.
Proof.
  change (MEMORY_SIZE - 1) with (Z.ones 16).
  change MEMORY_SIZE with (2 ^ 16). by apply Z.land_ones.
Qed.

Lemma land_mask_wrap (x : Z) :
  Z.land (Sem.wrap i32 x) (Sem.wrap i32 (MEMORY_SIZE - 1))
  = Z.land x (MEMORY_SIZE - 1).
Proof.
  change (Sem.wrap i32 (MEMORY_SIZE - 1)) with (MEMORY_SIZE - 1).
  rewrite !land_mask. unfold Sem.wrap. change (Sem.bits i32) with 32.
  change MEMORY_SIZE with (2 ^ 16).
  apply Z.mod_mod_divide. exists (2 ^ 16). reflexivity.
Qed.

Lemma effect_in_range (ch : ascii) (m m' : Sem.machine) :
  in_range m -> effect ch m = Some m' -> in_range m'.
Proof.
  unfold effect, in_range. intros Hm.
  repeat match goal with
         | |- context [Ascii.eqb ch ?c] => destruct (Ascii.eqb ch c)
         end; intros [= <-]; cbn [Sem.index Sem.set_host set_index set_cell];
    try done; rewrite land_mask; apply Z.mod_pos_bound; reflexivity.
Qed.

Variable md : module.
Hypothesis thunks : has_thunks md.

Local Abbreviation code_run := (exec_code (Sem.call_thunk md)).

Lemma exec_ptr_code (n : nat) (e : Sem.env) (m : Sem.machine) :
  in_range m ->
  exists e',
    code_run (ptr_code n) e m = Some (e', m) /\
    Sem.eval e' (cell_ptr n) = Some (Sem.VPtr "memory" (Sem.index m)).
Proof.
  intros Hm. unfold ptr_code. cbn [exec_code].
  rewrite exec_load_index.
  erewrite exec_gep_cell; [|apply eval_bind_eq|].
  - eexists. split; [reflexivity|]. apply eval_bind_eq.
  - unfold in_range in Hm. change MEMORY_SIZE with 65536 in Hm. lia.
Qed.

(** The instructions a character emits carry out its effect. *)
Lemma exec_straight_code (ch : ascii) (n : nat) (e : Sem.env)
    (m : Sem.machine) :
  in_range m ->
  snd <$> code_run (straight_code ch n) e m = effect ch m.
Proof.
  intros Hm. unfold straight_code, effect.
  destruct (Ascii.eqb ch ".").
  { rewrite exec_code_app.
    destruct (exec_ptr_code n e m Hm) as (e1 & -> & Hp).
    cbn [exec_code].
    erewrite exec_load_cell; [|exact Hp|exact Hm].
    erewrite exec_call_putc; [|exact thunks|apply eval_bind_eq].
    reflexivity. }
  destruct (Ascii.eqb ch ",").
  { cbn [exec_code]. by rewrite exec_call_getc. }
  destruct (Ascii.eqb ch ">").
  { cbn [exec_code]. rewrite exec_load_index.
    erewrite exec_add; [|apply eval_bind_eq|reflexivity].
    erewrite exec_and; [|apply eval_bind_eq|reflexivity].
    erewrite exec_store_index; [|apply eval_bind_eq|reflexivity].
    cbn [fmap option_fmap option_map snd]. unfold set_index.
    rewrite land_mask_wrap. reflexivity. }
  destruct (Ascii.eqb ch "<").
  { cbn [exec_code]. rewrite exec_load_index.
    erewrite exec_sub; [|apply eval_bind_eq|reflexivity].
    erewrite exec_and; [|apply eval_bind_eq|reflexivity].
    erewrite exec_store_index; [|apply eval_bind_eq|reflexivity].
    cbn [fmap option_fmap option_map snd]. unfold set_index.
    rewrite land_mask_wrap. reflexivity. }
  destruct (Ascii.eqb ch "+").
  { rewrite exec_code_app.
    destruct (exec_ptr_code n e m Hm) as (e1 & -> & Hp).
    cbn [exec_code].
    erewrite exec_load_cell; [|exact Hp|exact Hm].
    erewrite exec_add; [|apply eval_bind_eq|reflexivity].
    erewrite exec_store_cell;
      [|apply eval_bind_eq|reflexivity| |exact Hm].
    2:{ unfold cell_ptr in *. rewrite !eval_bind_ne by lia. exact Hp. }
    reflexivity. }
  destruct (Ascii.eqb ch "-").
  { rewrite exec_code_app.
    destruct (exec_ptr_code n e m Hm) as (e1 & -> & Hp).
    cbn [exec_code].
    erewrite exec_load_cell; [|exact Hp|exact Hm].
    erewrite exec_sub; [|apply eval_bind_eq|reflexivity].
    erewrite exec_store_cell;
      [|apply eval_bind_eq|reflexivity| |exact Hm].
    2:{ unfold cell_ptr in *. rewrite !eval_bind_ne by lia. exact Hp. }
    reflexivity. }
  reflexivity.
Qed.

End Denotation.

(** ** Compiling and running straight-line programs *)

(** No bracket occurs in the program. *)
Fixpoint straight (prog : string) : bool :=
  match prog with
  | EmptyString => true
  | String ch rest => negb (is_bracket ch) && straight rest
  end.

(** The instructions of a straight-line program, numbered from [n]. *)
Fixpoint prog_code (prog : string) (n : nat) : list instr :=
  match prog with
  | EmptyString => []
  | String ch rest =>
      straight_code ch n ++ prog_code rest (straight_names ch + n)
  end.

Fixpoint repeat_char (ch : ascii) (k : nat) : string :=
  match k with
  | O => EmptyString
  | S k => String ch (repeat_char ch k)
  end.

Lemma prog_code_open (prog : string) (n : nat) :
  open_block (prog_code prog n) = true.
Proof.
  revert n. induction prog as [|ch rest IH]; intros n; [done|].
  cbn [prog_code]. by rewrite open_block_app, straight_code_open, IH.
Qed.

Lemma step_not_bracket (ch : ascii) (st : state) :
  is_bracket ch = false ->
  step ch st =
    inr (State (alter (fun b => b ++ straight_code ch (names st))
                      (position st) (blocks st))
               (straight_names ch + names st) (position st)
               (block_stack st) (loop_stack st)
               (fst (cursor_from (line st) (col st) (String ch EmptyString)))
               (snd (cursor_from (line st) (col st) (String ch EmptyString)))).
Proof.
  intros Hb. cbn [cursor_from].
  destruct (Ascii.eqb_spec ch newline) as [->|Hn].
  - rewrite step_newline. cbn [fst snd].
    change (straight_code newline (names st)) with (@nil instr).
    rewrite list_alter_id by (intros; apply app_nil_r). reflexivity.
  - by rewrite step_straight.
Qed.

Lemma scan_straight (prog : string) (st : state) :
  straight prog = true ->
  exists st',
    scan prog st = inr st' /\
    blocks st' = alter (fun b => b ++ prog_code prog (names st))
                       (position st) (blocks st) /\
    position st' = position st /\ block_stack st' = block_stack st.
Proof.
  revert st. induction prog as [|ch rest IH]; intros st Hp.
  { exists st. repeat split.
    cbn [prog_code]. by rewrite list_alter_id by (intros; apply app_nil_r). }
  cbn [straight] in Hp. apply andb_prop in Hp as [Hb Hp].
  apply negb_true_iff in Hb.
  cbn [scan prog_code]. rewrite (step_not_bracket ch st Hb).
  destruct (IH (State (alter (fun b => b ++ straight_code ch (names st))
                         (position st) (blocks st))
                  (straight_names ch + names st) (position st)
                  (block_stack st) (loop_stack st)
                  (fst (cursor_from (line st) (col st) (String ch EmptyString)))
                  (snd (cursor_from (line st) (col st) (String ch EmptyString))))
              Hp)
    as (st' & Hs & Hbl & Hpos & Hst).
  exists st'. fields. repeat split; try done.
  by rewrite Hbl, alter_app_app.
Qed.

Lemma compile_straight (prog : string) :
  straight prog = true ->
  exists st,
    scan prog initial = inr st /\
    compile_bf prog = inr (build_module (ret_void st)) /\
    blocks (ret_void st) = [prog_code prog 0 ++ [RetVoid]].
Proof.
  intros Hp. destruct (scan_straight prog initial Hp)
    as (st & Hs & Hbl & Hpos & Hst).
  exists st. split; [done|]. split.
  - by apply (compile_of_scan prog st 0).
  - unfold ret_void, emit, set_blocks. fields. rewrite Hbl, Hpos.
    reflexivity.
Qed.

Section Run.

Local Open Scope Z_scope.

Lemma exec_prog_code (md : module) (prog : string) (n : nat)
    (e : Sem.env) (m : Sem.machine) :
  has_thunks md -> in_range m ->
  snd <$> exec_code (Sem.call_thunk md) (prog_code prog n) e m
  = effects prog m.
Proof.
  intros Hmd. revert n e m.
  induction prog as [|ch rest IH]; intros n e m Hm; [done|].
  cbn [prog_code effects]. rewrite exec_code_app.
  pose proof (exec_straight_code md Hmd ch n e m Hm) as Hch.
  destruct (exec_code _ (straight_code ch n) e m) as [[e1 m1]|];
    cbn [fmap option_fmap option_map snd] in Hch; rewrite <- Hch; [|done].
  apply IH. by apply (effect_in_range ch m).
Qed.

(** Running the compiled program carries out the effects of its
    characters in turn, within any fuel. *)
Lemma run_straight (prog : string) (m : Sem.machine) :
  straight prog = true -> in_range m ->
  exists md,
    compile_bf prog = inr md /\
    forall fuel,
      Sem.run_from (S fuel) md m =
        match effects prog m with
        | Some m' => Sem.Returned None m'
        | None => Sem.Undefined
        end.
Proof.
  intros Hp Hm. destruct (compile_straight prog Hp) as (st & Hs & Hc & Hb).
  eexists. split; [exact Hc|]. intros fuel.
  change (Sem.run_from (S fuel) (build_module (ret_void st)) m)
    with (Sem.exec_blocks (Sem.call_thunk (build_module (ret_void st)))
            (S fuel) (blocks (ret_void st)) 0%nat (Sem.Env [] ∅) m).
  rewrite Hb. cbn [Sem.exec_blocks lookup list_lookup].
  rewrite exec_block_open by apply prog_code_open.
  pose proof (exec_prog_code (build_module (ret_void st)) prog 0%nat
                (Sem.Env [] ∅) m (build_module_thunks _) Hm) as He.
  destruct (exec_code _ (prog_code prog 0%nat) _ m) as [[e1 m1]|];
    cbn [fmap option_fmap option_map snd] in He; rewrite <- He; done.
Qed.

End Run.

(** ** The cursor and the cells *)

Section Wraparound.

Local Open Scope Z_scope.

Lemma set_index_same (m : Sem.machine) : set_index m (Sem.index m) = m.
Proof. by destruct m. Qed.

Lemma effects_rights (k : nat) (m : Sem.machine) :
  in_range m ->
  effects (repeat_char ">" k) m =
    Some (set_index m ((Sem.index m + Z.of_nat k) mod MEMORY_SIZE)).
Proof.
  revert m. induction k as [|k IH]; intros m Hm.
  - cbn [repeat_char effects]. rewrite Z.add_0_r.
    rewrite Z.mod_small by exact Hm. by rewrite set_index_same.
  - cbn [repeat_char effects].
    change (effect ">" m)
      with (Some (set_index m (Z.land (Sem.index m + 1) (MEMORY_SIZE - 1)))).
    cbv iota. rewrite IH.
    + unfold set_index. cbn [Sem.memory Sem.index Sem.host].
      rewrite land_mask, Zplus_mod_idemp_l. do 3 f_equal. lia.
    + unfold in_range, set_index. cbn [Sem.index]. rewrite land_mask.
      apply Z.mod_pos_bound. reflexivity.
Qed.

(** C5. Moving the cursor stores (index + 1) & 65535 or (index - 1) &
    65535, a value in [0, 65536) whatever the index was; from index 0 a
    move to the left gives 65535, and 65536 moves to the right give the
    machine back as it was. *)
Theorem cursor_wraps (m : Sem.machine) :
  in_range m ->
  exists right left around,
    compile_bf ">" = inr right /\ compile_bf "<" = inr left /\
    compile_bf (repeat_char ">" (Z.to_nat MEMORY_SIZE)) = inr around /\
    Sem.run_from 1 right m =
      Sem.Returned None
        (set_index m (Z.land (Sem.index m + 1) (MEMORY_SIZE - 1))) /\
    Sem.run_from 1 left m =
      Sem.Returned None
        (set_index m (Z.land (Sem.index m - 1) (MEMORY_SIZE - 1))) /\
    (forall i, 0 <= Z.land i (MEMORY_SIZE - 1) < 65536) /\
    (Sem.index m = 0 ->
     Sem.run_from 1 left m = Sem.Returned None (set_index m 65535)) /\
    Sem.run_from 1 around m = Sem.Returned None m.
Proof.
  intros Hm.
  destruct (run_straight ">" m eq_refl Hm) as (right & Hr & Hrun).
  destruct (run_straight "<" m eq_refl Hm) as (left & Hl & Hlun).
  assert (Hst : forall k, straight (repeat_char ">" k) = true).
  { induction k as [|k IH]; [done|]. cbn [repeat_char straight].
    by rewrite IH. }
  destruct (run_straight _ m (Hst (Z.to_nat MEMORY_SIZE)) Hm)
    as (around & Ha & Haun).
  exists right, left, around.
  split; [exact Hr|]. split; [exact Hl|]. split; [exact Ha|].
  split; [exact (Hrun 0%nat)|]. split; [exact (Hlun 0%nat)|].
  split; [|split].
  - intros i. rewrite land_mask. apply Z.mod_pos_bound. reflexivity.
  - intros H0. rewrite (Hlun 0%nat). cbn [effects].
    change (effect "<" m)
      with (Some (set_index m (Z.land (Sem.index m - 1) (MEMORY_SIZE - 1)))).
    by rewrite H0.
  - rewrite (Haun 0%nat), (effects_rights _ m Hm).
    rewrite Z2Nat.id by done.
    rewrite <- (Z.mul_1_l MEMORY_SIZE) at 1.
    rewrite Z.mod_add by done. rewrite Z.mod_small by exact Hm.
    by rewrite set_index_same.
Qed.

(** C6. Increment and Decrement store (cell + 1) mod 256 and
    (cell - 1) mod 256 in the current cell: 255 becomes 0 under
    Increment, 0 becomes 255 under Decrement. *)
Theorem cell_arithmetic_wraps (m : Sem.machine) :
  in_range m ->
  exists inc dec,
    compile_bf "+" = inr inc /\ compile_bf "-" = inr dec /\
    Sem.run_from 1 inc m =
      Sem.Returned None (set_cell m ((current m + 1) mod 256)) /\
    Sem.run_from 1 dec m =
      Sem.Returned None (set_cell m ((current m - 1) mod 256)) /\
    (current m = 255 ->
     Sem.run_from 1 inc m = Sem.Returned None (set_cell m 0)) /\
    (current m = 0 ->
     Sem.run_from 1 dec m = Sem.Returned None (set_cell m 255)).
Proof.
  intros Hm.
  destruct (run_straight "+" m eq_refl Hm) as (inc & Hi & Hinc).
  destruct (run_straight "-" m eq_refl Hm) as (dec & Hd & Hdec).
  exists inc, dec.
  split; [exact Hi|]. split; [exact Hd|].
  split; [exact (Hinc 0%nat)|]. split; [exact (Hdec 0%nat)|].
  split; intros Hc.
  - rewrite (Hinc 0%nat). cbn [effects].
    change (effect "+" m) with (Some (set_cell m ((current m + 1) mod 256))).
    by rewrite Hc.
  - rewrite (Hdec 0%nat). cbn [effects].
    change (effect "-" m) with (Some (set_cell m ((current m - 1) mod 256))).
    by rewrite Hc.
Qed.

End Wraparound.

(** ** The output and input bridges *)

Section Bridges.

Local Open Scope Z_scope.

Lemma low_seven_bits (c : Z) : Z.land c 127 = c mod 128.
Proof. change 127 with (Z.ones 7). by apply Z.land_ones. Qed.

Lemma from_c_int8_low (v : Z) : Z.land (Host.from_c_int8 v) 127 = v mod 128.
Proof.
  rewrite low_seven_bits. unfold Host.from_c_int8. cbv zeta.
  assert (H : (v mod 256) mod 128 = v mod 128).
  { apply Z.mod_mod_divide. exists 2. reflexivity. }
  destruct (v mod 256 <? 128); [exact H|].
  rewrite <- H. replace (v mod 256 - 256) with (v mod 256 + (-2) * 128)
    by lia.
  apply Z.mod_add. done.
Qed.

(** C9. [putc] puts on the output stream everything still buffered and
    then the one character whose code is the low seven bits of its
    argument, and leaves nothing in the buffer; so two calls in a row
    show on the stream in the order of the calls. *)
Theorem putc_low_seven_bits (c : Z) (h : Host.io) :
  Host.putc c h =
    (Host.PyNone,
     Host.IO (Host.stdin h) EmptyString
             (Host.output h ++ Host.buffered h
                ++ Host.chr (Z.land c 127))%string) /\
  Host.buffered (snd (Host.putc c h)) = EmptyString /\
  Z.land c 127 = c mod 128 /\ 0 <= Z.land c 127 < 128 /\
  (forall v, Z.land (Host.from_c_int8 v) 127 = v mod 128) /\
  (forall c', Host.buffered h = EmptyString ->
     Host.output (snd (Host.putc c' (snd (Host.putc c h)))) =
       ((Host.output h ++ Host.chr (Z.land c 127))
          ++ Host.chr (Z.land c' 127))%string).
Proof.
  split; [reflexivity|]. split; [reflexivity|].
  split; [apply low_seven_bits|]. split.
  { rewrite low_seven_bits. apply Z.mod_pos_bound. reflexivity. }
  split; [exact from_c_int8_low|].
  intros c' Hb. unfold Host.putc, Host.write, Host.flush.
  cbn [snd Host.stdin Host.buffered Host.output]. rewrite Hb. reflexivity.
Qed.

Lemma putc_low_seven_bits_witness :
  Host.output (snd (Host.putc 66 (snd (Host.putc 193
                 (Host.IO EmptyString EmptyString EmptyString)))))
  = "AB".
Proof.
  rewrite (proj2 (proj2 (proj2 (proj2 (proj2
             (putc_low_seven_bits 193
                (Host.IO EmptyString EmptyString EmptyString))))))
             66 eq_refl).
  reflexivity.
Defined.

(** C4, as the code has it. [getc] hands back the character read as a
    Python string; the wrapper declared with result type [c_int8]
    converts no string, so the call of the thunk yields no defined
    byte, and the run of ",." is not defined on any input. *)
Theorem echo_input_undefined :
  Host.getc (Host.IO "A" EmptyString EmptyString)
    = (Host.PyStr "A", Host.IO EmptyString EmptyString EmptyString) /\
  Host.to_c_int8 (Host.PyStr "A") = None /\
  (forall h, Host.call_wrapper GETC_WRAPPER [] h = None) /\
  exists md,
    compile_bf ",." = inr md /\
    (forall fuel input, Sem.run (S fuel) md input = Sem.Undefined) /\
    compile_and_run 1 ",." "A" = None.
Proof.
  split; [reflexivity|]. split; [reflexivity|]. split.
  { intros [input b o]. unfold Host.call_wrapper, Host.getc, Host.read1.
    cbn [Host.stdin]. by destruct input. }
  assert (Hb : forall input, in_range (Sem.boot input)).
  { intros input. unfold in_range, Sem.boot. cbn [Sem.index].
    change MEMORY_SIZE with 65536. lia. }
  destruct (compile_straight ",." eq_refl) as (st & Hs & Hc & Hbl).
  exists (build_module (ret_void st)). split; [exact Hc|].
  assert (Hrun : forall fuel input,
    Sem.run (S fuel) (build_module (ret_void st)) input = Sem.Undefined).
  { intros fuel input.
    destruct (run_straight ",." (Sem.boot input) eq_refl (Hb input))
      as (md & Hmd & Hr).
    rewrite Hc in Hmd. injection Hmd as <-.
    unfold Sem.run. rewrite Hr. reflexivity. }
  split; [exact Hrun|].
  unfold compile_and_run. rewrite Hc, (Hrun 0%nat "A"). reflexivity.
Qed.

End Bridges.

Lemma cursor_wraps_witness :
  exists left,
    compile_bf "<" = inr left /\
    Sem.run_from 1 left (Sem.boot "") =
      Sem.Returned None (set_index (Sem.boot "") 65535).
Proof.
  assert (Hb : in_range (Sem.boot "")).
  { unfold in_range, Sem.boot. cbn [Sem.index].
    change MEMORY_SIZE with 65536%Z. lia. }
  destruct (cursor_wraps (Sem.boot "") Hb)
    as (r & l & a & _ & Hl & _ & _ & _ & _ & H0 & _).
  exists l. split; [exact Hl|]. apply H0. reflexivity.
Defined.

Lemma cell_arithmetic_wraps_witness :
  exists dec,
    compile_bf "-" = inr dec /\
    Sem.run_from 1 dec (Sem.boot "") =
      Sem.Returned None (set_cell (Sem.boot "") 255).
Proof.
  assert (Hb : in_range (Sem.boot "")).
  { unfold in_range, Sem.boot. cbn [Sem.index].
    change MEMORY_SIZE with 65536%Z. lia. }
  destruct (cell_arithmetic_wraps (Sem.boot "") Hb)
    as (i & d & _ & Hd & _ & _ & _ & H0).
  exists d. split; [exact Hd|]. apply H0. reflexivity.
Defined.

(** * Further properties of the translator *)

(** ** Which programs compile, and how the others fail *)

Lemma balanced_from_plain (ch : ascii) (rest : string) (d : nat) :
  is_bracket ch = false ->
  balanced_from d (String ch rest) = balanced_from d rest.
Proof.
  unfold is_bracket. intros [Ho Hc]%orb_false_elim.
  cbn [balanced_from]. by rewrite Ho, Hc.
Qed.

Lemma balanced_of_scan (prog : string) (st st' : state) (d : nat) :
  inv st -> length (block_stack st) = S d ->
  scan prog st = inr st' -> length (block_stack st') = 1 ->
  balanced_from d prog = true.
Proof.
  revert st d. induction prog as [|ch rest IH]; intros st d Hi Hlen Hs Hone.
  { injection Hs as <-. cbn [balanced_from]. apply Nat.eqb_eq. lia. }
  cbn [scan] in Hs. pose proof (inv_step ch st) as Hstep. revert Hs Hstep.
  destruct (step_cases ch st)
    as [-> | Hb Hn | top rest' -> Hst | -> Hst
        | top below rest' header loops -> Hst Hl | -> Hst | -> Hst Hl];
    intros Hs Hstep; try done.
  - apply (IH _ d (Hstep _ Hi eq_refl)); done.
  - rewrite balanced_from_plain by done.
    apply (IH _ d (Hstep _ Hi eq_refl)); done.
  - cbn [balanced_from]. change (Ascii.eqb "[" "[") with true. cbv iota.
    apply (IH _ (S d) (Hstep _ Hi eq_refl)); [|done..].
    fields. rewrite Hst in Hlen. cbn [length] in *. lia.
  - cbn [balanced_from]. change (Ascii.eqb "]" "[") with false.
    change (Ascii.eqb "]" "]") with true. cbv iota.
    rewrite Hst in Hlen. cbn [length] in Hlen.
    destruct d as [|d]; [lia|].
    apply (IH _ d (Hstep _ Hi eq_refl)); [|done..].
    fields. cbn [length]. lia.
Qed.

(** X1. [compile_bf] returns a module for exactly the programs whose
    brackets balance. *)
Theorem compiles_iff_balanced (prog : string) :
  (exists md, compile_bf prog = inr md) <-> balanced prog = true.
Proof.
  split.
  - intros [md (st & last & Hs & Hst & _)%scan_of_compile].
    apply (balanced_of_scan prog initial st 0 inv_initial eq_refl Hs).
    by rewrite Hst.
  - intros Hb.
    destruct (scan_balanced prog initial 0 inv_initial eq_refl Hb)
      as (st & Hs & Hlen).
    assert (Hi : inv st) by (eapply inv_scan; [apply inv_initial|done]).
    destruct (inv_stack_nonempty st Hi) as [r Hr].
    destruct r; [|by rewrite Hr in Hlen].
    eexists. by apply (compile_of_scan prog st (position st)).
Qed.

(** Where a scan stops: at a close bracket met with one block on the
    block stack, after a prefix scanned without error. *)
Lemma scan_stops_at_close (prog : string) (st : state) (e : exn) :
  inv st -> scan prog st = inl e ->
  exists prefix rest st0,
    prog = (prefix ++ String "]" rest)%string /\
    scan prefix st = inr st0 /\ length (block_stack st0) = 1 /\
    e = ValueError (line st0) (col st0 + 1) unmatched_close.
Proof.
  revert st. induction prog as [|ch rest IH]; intros st Hi Hs; [done|].
  cbn [scan] in Hs. pose proof (inv_step ch st) as Hstep.
  pose proof (inv_stack_nonempty st Hi) as [r Hr].
  pose proof (inv_parallel st Hi) as Hpar.
  revert Hs Hstep.
  destruct (step_cases ch st)
    as [Hch | Hb Hn | top rest' Hch Hst | Hch Hst
        | top below rest' header loops Hch Hst Hl | Hch Hst | Hch Hst Hl];
    intros Hs Hstep.
  1-3,5:
    (destruct (IH _ (Hstep _ Hi eq_refl) Hs)
       as (p & q & st0 & -> & Hp & Hlen & ->);
     exists (String ch p), q, st0; cbn [scan String.append];
     first [rewrite Hch, step_newline | rewrite step_straight by done
           | rewrite Hch, (step_open st _ _ Hst)
           | rewrite Hch, (step_close st _ _ _ _ _ Hst Hl)];
     done).
  - by rewrite Hst in Hr.
  - injection Hs as <-. exists EmptyString, rest, st. subst ch.
    repeat split. rewrite Hr in *. cbn [length] in *. lia.
  - rewrite Hl in Hpar. cbn [length] in Hpar. lia.
Qed.

(** X2. A compilation that fails raises one of the two [ValueError]s and
    nothing else (no list access of the loop is out of range, and the
    module text is always read back): either some close bracket follows a
    balanced prefix, and the error is positioned just after it, or the
    text ends inside a loop, and the error is positioned at the end. *)
Theorem failures_are_bracket_errors (prog : string) (e : exn) :
  compile_bf prog = inl e ->
  (exists prefix rest,
     prog = (prefix ++ String "]" rest)%string /\ balanced prefix = true /\
     e = ValueError (fst (cursor (prefix ++ "]")))
                    (snd (cursor (prefix ++ "]"))) unmatched_close) \/
  (0 < nesting prog /\
   e = ValueError (fst (cursor prog)) (snd (cursor prog)) unmatched_open).
Proof.
  unfold compile_bf. destruct (scan prog initial) as [e0|st] eqn:Hs.
  - intros [= <-]. left.
    destruct (scan_stops_at_close prog initial e0 inv_initial Hs)
      as (p & q & st0 & -> & Hp & Hlen & ->).
    exists p, q. split; [done|]. split.
    + by apply (balanced_of_scan p initial st0 0 inv_initial eq_refl Hp).
    + unfold cursor. rewrite cursor_from_app.
      pose proof (scan_cursor p initial st0 Hp) as Hc.
      change (cursor_from (line initial) (col initial) p)
        with (cursor_from 1 1 p) in Hc.
      rewrite <- Hc. reflexivity.
  - assert (Hi : inv st) by (eapply inv_scan; [apply inv_initial|done]).
    destruct (Nat.eqb_spec (length (block_stack st)) 1) as [Hone|Hne];
      cbn [negb].
    + destruct (inv_stack_nonempty st Hi) as [r Hr].
      destruct r; [|by rewrite Hr in Hone].
      unfold parse_assembly. by rewrite (build_module_ok st (position st)).
    + intros [= <-]. right.
      pose proof (inv_parallel st Hi) as Hpar.
      pose proof (scan_loop_stack prog initial st 0 [] inv_initial
                    eq_refl eq_refl Hs) as Hl.
      pose proof (scan_cursor prog initial st Hs) as Hc.
      change (cursor_from (line initial) (col initial) prog)
        with (cursor prog) in Hc.
      split.
      * unfold nesting. pose proof (open_loops_length prog 0 []) as Hn.
        cbn [length] in Hn. rewrite <- Hn.
        apply (f_equal length) in Hl. rewrite length_map in Hl.
        unfold open_loops in Hl. lia.
      * by rewrite <- Hc.
Qed.

Lemma failures_are_bracket_errors_witness :
  (exists prefix rest,
     "+]-" = (prefix ++ String "]" rest)%string /\ balanced prefix = true /\
     ValueError 1 3 unmatched_close =
       ValueError (fst (cursor (prefix ++ "]")))
                  (snd (cursor (prefix ++ "]"))) unmatched_close) \/
  (0 < nesting "+]-" /\
   ValueError 1 3 unmatched_close =
     ValueError (fst (cursor "+]-")) (snd (cursor "+]-")) unmatched_open).
Proof.
  apply (failures_are_bracket_errors "+]-" (ValueError 1 3 unmatched_close)).
  vm_compute. reflexivity.
Defined.

(** ** The shape of the control-flow graph *)

(** Number of open brackets in the text. *)
Fixpoint count_open (prog : string) : nat :=
  match prog with
  | EmptyString => 0
  | String ch rest =>
      if Ascii.eqb ch "[" then S (count_open rest) else count_open rest
  end.

(** The blocks of [bfmain] in a module. *)
Definition main_blocks (md : module) : list block :=
  match Sem.lookup_function md "bfmain" with
  | Some f => fn_blocks f
  | None => []
  end.

(** Every conditional branch among [bs] goes to the header of one of the
    first [k] loops or, when the cell is zero, to the block after it. *)
Definition branches_paired (bs : list block) (k : nat) : Prop :=
  forall l b c t f,
    bs !! l = Some b -> In (CBranch c t f) b ->
    exists j, j < k /\ t = header_of j /\ f = S t.

Lemma branch_not_in_open (b : block) (c : operand) (t f : label) :
  open_block b = true -> ~ In (CBranch c t f) b.
Proof.
  unfold open_block. rewrite forallb_forall. intros H Hin.
  by apply H in Hin.
Qed.

Lemma branch_in_branch_code (c : operand) (t f : label) (n : nat)
    (t0 f0 : label) :
  In (CBranch c t f) (branch_code n t0 f0) -> t = t0 /\ f = f0.
Proof.
  rewrite branch_code_snoc. intros [Hin|Hin]%in_app_or.
  - exfalso. revert Hin. by apply branch_not_in_open.
  - destruct Hin as [[= _ <- <-]|[]]. done.
Qed.

Lemma branches_paired_mono (bs : list block) (k k' : nat) :
  k <= k' -> branches_paired bs k -> branches_paired bs k'.
Proof.
  intros Hle H l b c t f Hl Hin.
  destruct (H l b c t f Hl Hin) as (j & Hj & Ht & Hf).
  exists j. repeat split; [lia|done..].
Qed.

(** Appending to one block instructions with at most one conditional
    branch, to the given pair of targets. *)
Lemma branches_paired_alter (bs : list block) (k : nat) (pos : label)
    (code : list instr) :
  branches_paired bs k ->
  (forall c t f, In (CBranch c t f) code ->
     exists j, j < k /\ t = header_of j /\ f = S t) ->
  branches_paired (alter (fun b => b ++ code) pos bs) k.
Proof.
  intros H Hcode l b c t f Hl Hin. rewrite list_lookup_alter in Hl.
  case_decide as Heq; [|exact (H l b c t f Hl Hin)].
  apply fmap_Some in Hl as (b0 & Hb0 & ->).
  apply in_app_or in Hin as [Hin|Hin];
    [exact (H pos b0 c t f Hb0 Hin)|exact (Hcode c t f Hin)].
Qed.

Lemma count_open_plain (ch : ascii) (rest : string) :
  is_bracket ch = false -> count_open (String ch rest) = count_open rest.
Proof.
  unfold is_bracket. intros [Ho _]%orb_false_elim.
  cbn [count_open]. by rewrite Ho.
Qed.

Lemma scan_paired (prog : string) (st st' : state) (k : nat) :
  inv st ->
  length (blocks st) = 1 + 2 * k ->
  tail (block_stack st) = map S (loop_stack st) ->
  (forall h, h ∈ loop_stack st -> exists j, j < k /\ h = header_of j) ->
  branches_paired (blocks st) k ->
  scan prog st = inr st' ->
  length (blocks st') = 1 + 2 * (k + count_open prog) /\
  branches_paired (blocks st') (k + count_open prog).
Proof.
  revert st k.
  induction prog as [|ch rest IH]; intros st k Hi Hlen Htl Hls Hbr Hs.
  { injection Hs as <-. cbn [count_open]. by rewrite Nat.add_0_r. }
  cbn [scan] in Hs. pose proof (inv_step ch st) as Hstep.
  revert Hs Hstep.
  destruct (step_cases ch st)
    as [-> | Hb Hn | top rest' -> Hst | -> Hst
        | top below rest' header loops -> Hst Hl | -> Hst | -> Hst Hl];
    intros Hs Hstep; try done.
  - apply (IH _ k (Hstep _ Hi eq_refl)); done.
  - rewrite count_open_plain by done.
    apply (IH _ k (Hstep _ Hi eq_refl)); fields;
      rewrite ?length_alter; try done.
    apply branches_paired_alter; [done|].
    intros c t f Hin. exfalso. revert Hin.
    apply branch_not_in_open, straight_code_open.
  - cbn [count_open]. change (Ascii.eqb "[" "[") with true. cbv iota.
    rewrite <- Nat.add_succ_comm.
    apply (IH _ (S k) (Hstep _ Hi eq_refl)); fields; [| | | |done].
    + rewrite length_alter, length_app. cbn [length]. lia.
    + cbn [tail map]. rewrite Hst in Htl. cbn [tail] in Htl. by rewrite Htl.
    + intros h [->|Hh]%elem_of_cons.
      * exists k. split; [lia|]. unfold header_of. lia.
      * destruct (Hls h Hh) as (j & Hj & ->). exists j. split; [lia|done].
    + apply branches_paired_alter.
      * intros l b c t f Hl Hin.
        destruct (decide (l < length (blocks st))) as [Hlt|Hge].
        -- rewrite lookup_app_l in Hl by done.
           destruct (Hbr l b c t f Hl Hin) as (j & Hj & Ht & Hf).
           exists j. repeat split; [lia|done..].
        -- apply Nat.nlt_ge in Hge.
           rewrite lookup_app_r in Hl by exact Hge.
           match type of Hl with
           | _ !! ?i = _ => destruct i as [|[|?]]
           end; cbn in Hl; try done; injection Hl as <-; destruct Hin.
      * intros c t f [-> ->]%branch_in_branch_code.
        exists k. split; [lia|]. split; [|done]. unfold header_of. lia.
  - cbn [count_open]. change (Ascii.eqb "]" "[") with false. cbv iota.
    rewrite Hst, Hl in Htl. cbn [tail map] in Htl.
    injection Htl as Hbelow Hrest.
    apply (IH _ k (Hstep _ Hi eq_refl)); fields;
      rewrite ?length_alter; try done.
    + intros h Hh. apply Hls. rewrite Hl. by apply list_elem_of_further.
    + apply branches_paired_alter; [done|].
      intros c t f [-> ->]%branch_in_branch_code.
      destruct (Hls header) as (j & Hj & ->).
      { rewrite Hl. apply list_elem_of_here. }
      exists j. by repeat split.
Qed.

Lemma main_blocks_build (st : state) :
  main_blocks (build_module st) = blocks st.
Proof. reflexivity. Qed.

(** X3. The function of a compiled program has one block, plus two for
    every open bracket of the text. *)
Theorem two_blocks_per_loop (prog : string) (md : module) :
  compile_bf prog = inr md ->
  length (main_blocks md) = 1 + 2 * count_open prog.
Proof.
  intros (st & last & Hs & Hst & ->)%scan_of_compile.
  rewrite main_blocks_build. unfold ret_void, emit, set_blocks. fields.
  rewrite length_alter.
  destruct (scan_paired prog initial st 0 inv_initial eq_refl eq_refl)
    as [Hlen _]; try done.
  - intros h Hh. by apply elem_of_nil in Hh.
  - intros l b c t f Hl Hin. destruct l; cbn in Hl; [|done].
    injection Hl as <-. destruct Hin.
Qed.

Lemma two_blocks_per_loop_witness :
  exists md, compile_bf "+[>[-]<]" = inr md /\ length (main_blocks md) = 5.
Proof.
  destruct (compile_bf "+[>[-]<]") as [e|md] eqn:Hc; [by vm_compute in Hc|].
  exists md. split; [reflexivity|].
  exact (two_blocks_per_loop "+[>[-]<]" md Hc).
Defined.



(** ** Running programs without loops *)

(** X5. A program without brackets compiles, and running it from the
    initial machine carries out the effects of its characters in order;
    the run is undefined from the first character whose effect is. *)
Theorem straight_programs_run (prog input : string) (fuel : nat) :
  straight prog = true ->
  exists md,
    compile_bf prog = inr md /\
    Sem.run (S fuel) md input =
      match effects prog (Sem.boot input) with
      | Some m' => Sem.Returned None m'
      | None => Sem.Undefined
      end.
Proof.
  intros Hp.
  assert (Hb : in_range (Sem.boot input)).
  { unfold in_range, Sem.boot. cbn [Sem.index].
    change MEMORY_SIZE with 65536%Z. lia. }
  destruct (run_straight prog (Sem.boot input) Hp Hb) as (md & Hc & Hr).
  exists md. split; [exact Hc|]. apply Hr.
Qed.

Lemma straight_programs_run_witness :
  compile_and_run 1 "+++>++<." "" = Some (String (ascii_of_nat 3) "").
Proof.
  destruct (straight_programs_run "+++>++<." "" 0 eq_refl) as (md & Hc & Hr).
  unfold compile_and_run. rewrite Hc, Hr. vm_compute. reflexivity.
Defined.

(** The text holds an input instruction. *)
Fixpoint has_input (prog : string) : bool :=
  match prog with
  | EmptyString => false
  | String ch rest => Ascii.eqb ch "," || has_input rest
  end.

Lemma effect_defined (ch : ascii) (m : Sem.machine) :
  Ascii.eqb ch "," = false ->
  exists m', effect ch m = Some m' /\
             Host.stdin (Sem.host m') = Host.stdin (Sem.host m).
Proof.
  intros Hc. unfold effect. rewrite Hc.
  repeat match goal with
         | |- context [Ascii.eqb ch ?c] => destruct (Ascii.eqb ch c)
         end; eexists; split; reflexivity.
Qed.

Lemma effects_defined (prog : string) (m : Sem.machine) :
  has_input prog = false -> in_range m ->
  exists m', effects prog m = Some m' /\ in_range m' /\
             Host.stdin (Sem.host m') = Host.stdin (Sem.host m).
Proof.
  revert m. induction prog as [|ch rest IH]; intros m Hp Hm.
  { by exists m. }
  cbn [has_input] in Hp. apply orb_false_elim in Hp as [Hc Hp].
  destruct (effect_defined ch m Hc) as (m1 & He & Hin).
  cbn [effects]. rewrite He.
  destruct (IH m1 Hp (effect_in_range ch m m1 Hm He))
    as (m' & Hes & Hr & Hin').
  exists m'. split; [done|]. split; [done|]. by rewrite Hin'.
Qed.

Lemma effects_undefined (prog : string) (m : Sem.machine) :
  has_input prog = true -> effects prog m = None.
Proof.
  revert m. induction prog as [|ch rest IH]; intros m Hp; [done|].
  cbn [has_input] in Hp. cbn [effects].
  destruct (Ascii.eqb ch ",") eqn:Hc.
  - unfold effect. rewrite Hc.
    by destruct (Ascii.eqb ch ".") eqn:Hd;
      [apply Ascii.eqb_eq in Hc, Hd; congruence|].
  - destruct (effect ch m) as [m1|]; [|done]. by apply IH.
Qed.

(** X6. Run from a machine whose index is in the array, a program with
    neither brackets nor input instructions returns: no load or store
    leaves the array, the index ends in the array and nothing is read
    from the input. With an input instruction in it, its run is not
    defined. *)
Theorem straight_run_defined (prog : string) (m : Sem.machine) :
  straight prog = true -> in_range m ->
  exists md,
    compile_bf prog = inr md /\
    (has_input prog = false ->
     exists m', Sem.run_from 1 md m = Sem.Returned None m' /\
                in_range m' /\
                Host.stdin (Sem.host m') = Host.stdin (Sem.host m)) /\
    (has_input prog = true -> Sem.run_from 1 md m = Sem.Undefined).
Proof.
  intros Hp Hm. destruct (run_straight prog m Hp Hm) as (md & Hc & Hr).
  exists md. split; [exact Hc|]. split; intros Hi; rewrite (Hr 0).
  - destruct (effects_defined prog m Hi Hm) as (m' & -> & Hr' & Hin).
    by exists m'.
  - by rewrite (effects_undefined prog m Hi).
Qed.

Lemma straight_run_defined_witness :
  exists md m',
    compile_bf "+>-<." = inr md /\
    Sem.run_from 1 md (Sem.boot "xyz") = Sem.Returned None m' /\
    Host.stdin (Sem.host m') = "xyz".
Proof.
  assert (Hb : in_range (Sem.boot "xyz")).
  { unfold in_range, Sem.boot. cbn [Sem.index].
    change MEMORY_SIZE with 65536%Z. lia. }
  destruct (straight_run_defined "+>-<." (Sem.boot "xyz") eq_refl Hb)
    as (md & Hc & Hdef & _).
  destruct (Hdef eq_refl) as (m' & Hr & _ & Hin).
  exists md, m'. repeat split; [exact Hc|exact Hr|exact Hin].
Defined.

Section OutputBridge.

Local Open Scope Z_scope.

(** The machine after one character went out. *)
Definition after_output (m : Sem.machine) (code : Z) : Sem.machine :=
  Sem.Machine (Sem.memory m) (Sem.index m)
    (Host.IO (Host.stdin (Sem.host m)) EmptyString
       (Host.output (Sem.host m) ++ Host.buffered (Sem.host m)
          ++ Host.chr code)%string).

Lemma putc_from_c_int8 (v : Z) (m : Sem.machine) :
  Sem.set_host (snd (Host.putc (Host.from_c_int8 v) (Sem.host m))) m
  = after_output m (v mod 128).
Proof.
  unfold Host.putc, Host.write, Host.flush, Sem.set_host, after_output.
  cbn [snd Host.stdin Host.buffered Host.output].
  by rewrite from_c_int8_low.
Qed.

(** X7. The Output instruction leaves memory and index alone and sends
    to the output, behind whatever was buffered, the one character whose
    code is the current cell modulo 128. *)
Theorem output_writes_cell (m : Sem.machine) :
  in_range m ->
  exists md,
    compile_bf "." = inr md /\
    Sem.run_from 1 md m =
      Sem.Returned None (after_output m (current m mod 128)).
Proof.
  intros Hm. destruct (run_straight "." m eq_refl Hm) as (md & Hc & Hr).
  exists md. split; [exact Hc|]. rewrite (Hr 0%nat). cbn [effects].
  change (effect "." m)
    with (Some (Sem.set_host
                  (snd (Host.putc (Host.from_c_int8 (current m))
                          (Sem.host m))) m)).
  cbv iota. by rewrite putc_from_c_int8.
Qed.

(** X8. In a compiled module the function [putc] made by [create_thunk]
    hands its argument to the host's [putc] and returns nothing: called
    with a byte, it sends the character with that byte's low seven bits
    to the output and touches neither memory nor index. *)
Theorem putc_thunk_forwards (prog : string) (md : module) (v : Z)
    (m : Sem.machine) :
  compile_bf prog = inr md ->
  Sem.call_thunk md "putc" [Sem.VInt v] m =
    Some (None, after_output m (v mod 128)).
Proof.
  intros (st & last & _ & _ & ->)%scan_of_compile.
  rewrite (call_putc _ (build_module_thunks _)).
  by rewrite putc_from_c_int8.
Qed.

End OutputBridge.

Lemma output_writes_cell_witness :
  exists md,
    compile_bf "." = inr md /\
    Sem.run_from 1 md (Sem.boot "") =
      Sem.Returned None (after_output (Sem.boot "") 0).
Proof.
  assert (Hb : in_range (Sem.boot "")).
  { unfold in_range, Sem.boot. cbn [Sem.index].
    change MEMORY_SIZE with 65536%Z. lia. }
  exact (output_writes_cell (Sem.boot "") Hb).
Defined.

Lemma putc_thunk_forwards_witness :
  exists md,
    compile_bf "" = inr md /\
    Sem.call_thunk md "putc" [Sem.VInt 200] (Sem.boot "") =
      Some (None, after_output (Sem.boot "") 72).
Proof.
  destruct (compile_bf "") as [e|md] eqn:Hc; [by vm_compute in Hc|].
  exists md. split; [reflexivity|].
  exact (putc_thunk_forwards "" md 200 (Sem.boot "") Hc).
Defined.

(** ** Line and column *)






(** ** Instruction numbers *)

Definition operand_uses (o : operand) : list nat :=
  match o with
  | Value n _ => [n]
  | _ => []
  end.

(** The instruction results an instruction reads. *)
Definition uses (i : instr) : list nat :=
  match i with
  | Load _ _ ptr => operand_uses ptr
  | Store value ptr => operand_uses value ++ operand_uses ptr
  | Add _ _ lhs rhs | Sub _ _ lhs rhs | And _ _ lhs rhs =>
      operand_uses lhs ++ operand_uses rhs
  | GEP _ _ ptr indices => operand_uses ptr ++ flat_map operand_uses indices
  | ICmpNe _ lhs rhs => operand_uses lhs ++ operand_uses rhs
  | Call _ _ fn args => operand_uses fn ++ flat_map operand_uses args
  | IntToPtr _ _ value => operand_uses value
  | CBranch cond _ _ => operand_uses cond
  | RetVoid => []
  | Ret value => operand_uses value
  end.

(** The number an instruction carries, when it carries one. *)
Definition defs (i : instr) : list nat :=
  match i with
  | Load n _ _ | Add n _ _ _ | Sub n _ _ _ | And n _ _ _ | GEP n _ _ _
  | ICmpNe n _ _ | Call n _ _ _ | IntToPtr n _ _ => [n]
  | Store _ _ | CBranch _ _ _ | RetVoid | Ret _ => []
  end.

(** Every result read in [b] is that of an instruction of [seen] or of an
    earlier instruction of [b]. *)
Fixpoint defined_before (seen : list nat) (b : block) : Prop :=
  match b with
  | [] => True
  | i :: rest =>
      (forall u, In u (uses i) -> In u seen) /\
      defined_before (defs i ++ seen) rest
  end.

Definition block_defs (b : block) : list nat := flat_map defs b.

Definition all_defs (bs : list block) : list nat := flat_map block_defs bs.

Lemma defined_before_app (seen : list nat) (b1 b2 : block) :
  defined_before seen b1 -> (forall s, defined_before s b2) ->
  defined_before seen (b1 ++ b2).
Proof.
  revert seen. induction b1 as [|i b1 IH]; intros seen H1 H2; [apply H2|].
  destruct H1 as [Hu H1]. split; [exact Hu|]. by apply IH.
Qed.

Ltac close_code :=
  cbn [defined_before uses defs operand_uses app flat_map In
       ptr_code cell_ptr g_index g_memory f_putc f_getc
       ZERO_i8 ZERO_i32 ONE_i8 ONE_i32 MEMORY_MASK_i32];
  repeat split; intros u Hu; cbn [In app] in *; intuition.

Lemma straight_code_closed (ch : ascii) (n : nat) (seen : list nat) :
  defined_before seen (straight_code ch n).
Proof.
  unfold straight_code.
  repeat match goal with
         | |- context [Ascii.eqb ch ?c] => destruct (Ascii.eqb ch c)
         end; close_code.
Qed.

Lemma branch_code_closed (n : nat) (t f : label) (seen : list nat) :
  defined_before seen (branch_code n t f).
Proof. unfold branch_code. close_code. Qed.

Lemma straight_code_defs (ch : ascii) (n : nat) :
  block_defs (straight_code ch n) = seq n (straight_names ch).
Proof.
  unfold straight_code, straight_names.
  repeat match goal with
         | |- context [Ascii.eqb ch ?c] => destruct (Ascii.eqb ch c)
         end; reflexivity.
Qed.

Lemma branch_code_defs (n : nat) (t f : label) :
  block_defs (branch_code n t f) = seq n 4.
Proof. reflexivity. Qed.

Lemma all_defs_alter (bs : list block) (pos : label) (code : list instr) :
  pos < length bs ->
  Permutation (all_defs (alter (fun b => b ++ code) pos bs))
              (all_defs bs ++ block_defs code).
Proof.
  revert pos. induction bs as [|b bs IH]; intros pos Hpos.
  { cbn [length] in Hpos. lia. }
  destruct pos as [|pos].
  - cbn [alter list_alter all_defs flat_map]. unfold block_defs at 1.
    rewrite flat_map_app. fold (block_defs b) (block_defs code).
    rewrite <- !app_assoc. apply Permutation_app_head.
    apply Permutation_app_comm.
  - change (alter (fun b0 => b0 ++ code) (S pos) (b :: bs))
      with (b :: alter (fun b0 => b0 ++ code) pos bs).
    cbn [all_defs flat_map]. fold (all_defs bs).
    fold (all_defs (alter (fun b0 => b0 ++ code) pos bs)).
    rewrite <- app_assoc. apply Permutation_app_head, IH.
    cbn [length] in Hpos. lia.
Qed.

(** Numbers in use, and by whom. *)
Record numbered (st : state) : Prop := Numbered {
  num_before : forall l b, blocks st !! l = Some b -> defined_before [] b;
  num_once : Permutation (all_defs (blocks st)) (seq 0 (names st))
}.

Lemma numbered_append (st : state) (bs : list block) (code : list instr)
    (k : nat) :
  position st < length bs ->
  (forall l b, bs !! l = Some b -> defined_before [] b) ->
  Permutation (all_defs bs) (seq 0 (names st)) ->
  (forall s, defined_before s code) ->
  block_defs code = seq (names st) k ->
  (forall l b,
     alter (fun b => b ++ code) (position st) bs !! l = Some b ->
     defined_before [] b) /\
  Permutation (all_defs (alter (fun b => b ++ code) (position st) bs))
              (seq 0 (k + names st)).
Proof.
  intros Hpos Hb Hp Hc Hd. split.
  - intros l b Hl. rewrite list_lookup_alter in Hl.
    case_decide as Heq; [|by eapply Hb].
    apply fmap_Some in Hl as (b0 & Hb0 & ->).
    apply defined_before_app; [by eapply Hb|exact Hc].
  - rewrite all_defs_alter by exact Hpos.
    rewrite Hd, Nat.add_comm, seq_app. by apply Permutation_app_tail.
Qed.

Lemma numbered_step (ch : ascii) (st st' : state) :
  inv st -> numbered st -> step ch st = inr st' -> numbered st'.
Proof.
  intros Hi [Hb Hp].
  assert (Hpos : position st < length (blocks st)).
  { destruct (inv_stack_nonempty st Hi) as [r Hr].
    apply (inv_bound st Hi). rewrite Hr. apply list_elem_of_here. }
  destruct (step_cases ch st)
    as [-> | Hbr Hn | top rest' -> Hst | -> Hst
        | top below rest' header loops -> Hst Hl | -> Hst | -> Hst Hl];
    intros Hs; try done; injection Hs as <-.
  - by split.
  - destruct (numbered_append st (blocks st) (straight_code ch (names st))
                (straight_names ch) Hpos Hb Hp
                (straight_code_closed ch (names st))
                (straight_code_defs ch (names st))) as [H1 H2].
    by split.
  - destruct (numbered_append st (blocks st ++ [[]; []])
                (branch_code (names st) (length (blocks st))
                   (S (length (blocks st)))) 4) as [H1 H2].
    + rewrite length_app. lia.
    + intros l b Hl. destruct (decide (l < length (blocks st))) as [Hlt|Hge].
      * rewrite lookup_app_l in Hl by done. by eapply Hb.
      * apply Nat.nlt_ge in Hge. rewrite lookup_app_r in Hl by exact Hge.
        match type of Hl with
        | _ !! ?i = _ => destruct i as [|[|?]]
        end; cbn in Hl; try done; by injection Hl as <-.
    + unfold all_defs. rewrite flat_map_app. cbn [flat_map block_defs app].
      by rewrite app_nil_r.
    + apply branch_code_closed.
    + apply branch_code_defs.
    + by split.
  - destruct (numbered_append st (blocks st)
                (branch_code (names st) header below) 4 Hpos Hb Hp
                (branch_code_closed (names st) header below)
                (branch_code_defs (names st) header below)) as [H1 H2].
    by split.
Qed.

Lemma numbered_scan (prog : string) (st st' : state) :
  inv st -> numbered st -> scan prog st = inr st' -> numbered st'.
Proof.
  revert st. induction prog as [|ch rest IH]; intros st Hi Hn Hs;
    cbn [scan] in Hs.
  { by injection Hs as <-. }
  destruct (step ch st) as [e|st1] eqn:Hst; [done|].
  apply (IH st1); [by eapply inv_step|by eapply numbered_step|done].
Qed.

Lemma numbered_initial : numbered initial.
Proof.
  split.
  - intros l b Hl. destruct l; cbn in Hl; [|done]. by injection Hl as <-.
  - reflexivity.
Qed.

(** X10. In the function of a compiled program every instruction result
    that an instruction reads is produced by an earlier instruction of
    the same block, and no two instructions carry the same number. *)
Theorem results_defined_once (prog : string) (md : module) :
  compile_bf prog = inr md ->
  (forall l b, main_blocks md !! l = Some b -> defined_before [] b) /\
  NoDup (all_defs (main_blocks md)).
Proof.
  intros (st & last & Hs & Hst & ->)%scan_of_compile.
  rewrite main_blocks_build.
  assert (Hi : inv st) by (eapply inv_scan; [apply inv_initial|done]).
  destruct (numbered_scan prog initial st inv_initial numbered_initial Hs)
    as [Hb Hp].
  assert (Hpos : position st < length (blocks st)).
  { destruct (inv_stack_nonempty st Hi) as [r Hr].
    apply (inv_bound st Hi). rewrite Hr. apply list_elem_of_here. }
  destruct (numbered_append st (blocks st) [RetVoid] 0 Hpos Hb Hp)
    as [H1 H2].
  - intros s. by split.
  - reflexivity.
  - split; [exact H1|].
    unfold ret_void, emit, set_blocks. fields. rewrite H2.
    apply NoDup_seq.
Qed.

Lemma results_defined_once_witness :
  exists md,
    compile_bf "+[-.]" = inr md /\ NoDup (all_defs (main_blocks md)).
Proof.
  destruct (compile_bf "+[-.]") as [e|md] eqn:Hc; [by vm_compute in Hc|].
  exists md. split; [reflexivity|].
  exact (proj2 (results_defined_once "+[-.]" md Hc)).
Defined.

(** ** Programs with one loop *)

Lemma scan_straight_loops (prog : string) (st st' : state) :
  straight prog = true -> scan prog st = inr st' ->
  loop_stack st' = loop_stack st.
Proof.
  revert st. induction prog as [|ch rest IH]; intros st Hp Hs.
  { by injection Hs as <-. }
  cbn [straight] in Hp. apply andb_prop in Hp as [Hb Hp].
  apply negb_true_iff in Hb. cbn [scan] in Hs.
  rewrite (step_not_bracket ch st Hb) in Hs.
  by rewrite (IH _ Hp Hs).
Qed.

Lemma scan_app_inr (p q : string) (st st1 : state) :
  scan p st = inr st1 -> scan (p ++ q)%string st = scan q st1.
Proof. intros H. by rewrite scan_app, H. Qed.

Lemma scan_cons_inr (ch : ascii) (q : string) (st st1 : state) :
  step ch st = inr st1 -> scan (String ch q) st = scan q st1.
Proof. intros H. cbn [scan]. by rewrite H. Qed.

(** The three blocks of a program made of a straight-line text, a loop
    over a straight-line body, and a straight-line text. *)
Lemma compile_one_loop (pre body post : string) :
  straight pre = true -> straight body = true -> straight post = true ->
  exists st n1 n2 n3,
    compile_bf (pre ++ String "[" (body ++ String "]" post))
      = inr (build_module (ret_void st)) /\
    blocks (ret_void st) =
      [ prog_code pre 0 ++ branch_code n1 1 2;
        prog_code body n2 ++ branch_code n3 1 2;
        prog_code post (4 + n3) ++ [RetVoid] ].
Proof.
  intros Hpre Hbody Hpost.
  destruct (scan_straight pre initial Hpre) as (s1 & Hs1 & Hb1 & Hp1 & Hk1).
  pose proof (scan_straight_loops pre initial s1 Hpre Hs1) as Hl1.
  change (block_stack initial) with [0] in Hk1.
  change (position initial) with 0 in Hp1, Hb1.
  change (loop_stack initial) with (@nil label) in Hl1.
  change (blocks initial) with [@nil instr] in Hb1.
  change (names initial) with 0 in Hb1.
  change (alter (fun b => b ++ prog_code pre 0) 0 [[]])
    with [prog_code pre 0] in Hb1.
  pose proof (step_open s1 0 [] Hk1) as Ho.
  rewrite Hb1, Hp1, Hl1 in Ho. cbn [length app] in Ho.
  change (alter (fun b => b ++ branch_code (names s1) 1 2) 0
            [prog_code pre 0; []; []])
    with [prog_code pre 0 ++ branch_code (names s1) 1 2; []; []] in Ho.
  set (s2 := State [prog_code pre 0 ++ branch_code (names s1) 1 2; []; []]
                   (4 + names s1) 1 [1; 2] [1] (line s1) (col s1 + 1)) in Ho.
  destruct (scan_straight body s2 Hbody) as (s3 & Hs3 & Hb3 & Hp3 & Hk3).
  pose proof (scan_straight_loops body s2 s3 Hbody Hs3) as Hl3.
  change (position s2) with 1 in Hb3, Hp3.
  change (block_stack s2) with [1; 2] in Hk3.
  change (loop_stack s2) with [1] in Hl3.
  change (names s2) with (4 + names s1) in Hb3.
  change (blocks s2)
    with [prog_code pre 0 ++ branch_code (names s1) 1 2; []; []] in Hb3.
  change (alter (fun b => b ++ prog_code body (4 + names s1)) 1
            [prog_code pre 0 ++ branch_code (names s1) 1 2; []; []])
    with [prog_code pre 0 ++ branch_code (names s1) 1 2;
          prog_code body (4 + names s1); []] in Hb3.
  pose proof (step_close s3 1 2 1 [] [] Hk3 Hl3) as Hc.
  rewrite Hb3, Hp3 in Hc.
  change (alter (fun b => b ++ branch_code (names s3) 1 2) 1
            [prog_code pre 0 ++ branch_code (names s1) 1 2;
             prog_code body (4 + names s1); []])
    with [prog_code pre 0 ++ branch_code (names s1) 1 2;
          prog_code body (4 + names s1) ++ branch_code (names s3) 1 2;
          []] in Hc.
  set (s4 := State [prog_code pre 0 ++ branch_code (names s1) 1 2;
                    prog_code body (4 + names s1)
                      ++ branch_code (names s3) 1 2; []]
                   (4 + names s3) 2 [2] [] (line s3) (col s3 + 1)) in Hc.
  destruct (scan_straight post s4 Hpost) as (s5 & Hs5 & Hb5 & Hp5 & Hk5).
  change (position s4) with 2 in Hb5, Hp5.
  change (block_stack s4) with [2] in Hk5.
  change (names s4) with (4 + names s3) in Hb5.
  change (blocks s4)
    with [prog_code pre 0 ++ branch_code (names s1) 1 2;
          prog_code body (4 + names s1) ++ branch_code (names s3) 1 2;
          []] in Hb5.
  assert (Hs : scan (pre ++ String "[" (body ++ String "]" post)) initial
               = inr s5).
  { rewrite (scan_app_inr pre _ initial s1 Hs1).
    rewrite (scan_cons_inr "[" _ s1 s2 Ho).
    etransitivity; [exact (scan_app_inr body _ s2 s3 Hs3)|].
    etransitivity; [exact (scan_cons_inr "]" post s3 s4 Hc)|].
    exact Hs5. }
  exists s5, (names s1), (4 + names s1), (names s3).
  split; [by apply (compile_of_scan _ s5 2)|].
  unfold ret_void, emit, set_blocks. fields. rewrite Hb5, Hp5.
  reflexivity.
Qed.

Section Loop.

(** Leaving the loop: the third block runs the rest of the text. *)
Definition finish (fuel : nat) (post : string) (m : Sem.machine)
    : Sem.outcome :=
  match fuel with
  | O => Sem.OutOfFuel
  | S _ =>
      match effects post m with
      | Some m' => Sem.Returned None m'
      | None => Sem.Undefined
      end
  end.

(** The second block: the body, then again while the cell is not zero. *)
Fixpoint iterate (fuel : nat) (body post : string) (m : Sem.machine)
    : Sem.outcome :=
  match fuel with
  | O => Sem.OutOfFuel
  | S fuel =>
      match effects body m with
      | None => Sem.Undefined
      | Some m' =>
          if (current m' =? 0)%Z then finish fuel post m'
          else iterate fuel body post m'
      end
  end.

(** The text before the loop, then the loop if the cell is not zero; each
    block entered costs one unit of fuel. *)
Definition one_loop (fuel : nat) (pre body post : string)
    (m : Sem.machine) : Sem.outcome :=
  match fuel with
  | O => Sem.OutOfFuel
  | S fuel =>
      match effects pre m with
      | None => Sem.Undefined
      | Some m' =>
          if (current m' =? 0)%Z then finish fuel post m'
          else iterate fuel body post m'
      end
  end.

Lemma effects_in_range (prog : string) (m m' : Sem.machine) :
  in_range m -> effects prog m = Some m' -> in_range m'.
Proof.
  revert m. induction prog as [|ch rest IH]; intros m Hm He.
  { by injection He as <-. }
  cbn [effects] in He. destruct (effect ch m) as [m1|] eqn:H1; [|done].
  apply (IH m1); [by apply (effect_in_range ch m)|done].
Qed.

Variable md : module.
Hypothesis thunks : has_thunks md.

Lemma exec_icmp_ne (n : nat) (a b : operand) (x y : Z) (e : Sem.env)
    (m : Sem.machine) :
  Sem.eval e a = Some (Sem.VInt x) -> Sem.eval e b = Some (Sem.VInt y) ->
  Sem.exec_instr (Sem.call_thunk md) (ICmpNe n a b) e m =
    Some (Sem.bind n (Sem.VInt (if (x =? y)%Z then 0 else 1)) e, m).
Proof.
  intros Ha Hb. unfold Sem.exec_instr, Sem.eval_int. rewrite Ha, Hb.
  reflexivity.
Qed.

Lemma exec_branch_code (n : nat) (t f : label) (e : Sem.env)
    (m : Sem.machine) :
  in_range m ->
  exists e',
    Sem.exec_block (Sem.call_thunk md) (branch_code n t f) e m =
      Some (Sem.Goto (if (current m =? 0)%Z then f else t), e', m).
Proof.
  intros Hm. unfold branch_code.
  rewrite exec_block_open by reflexivity.
  destruct (exec_ptr_code md n e m Hm) as (e1 & -> & Hp).
  cbn [Sem.exec_block].
  erewrite exec_load_cell; [|exact Hp|exact Hm].
  cbn [mbind option_bind].
  erewrite exec_icmp_ne; [|apply eval_bind_eq|reflexivity].
  cbn [mbind option_bind]. unfold Sem.eval_int. rewrite eval_bind_eq.
  cbn [mbind option_bind]. unfold current.
  change (Sem.wrap i8 0) with 0%Z.
  destruct (Sem.memory m (Sem.index m) =? 0)%Z; eexists; reflexivity.
Qed.

Lemma exec_then_branch (prog : string) (k n : nat) (t f : label)
    (e : Sem.env) (m : Sem.machine) :
  in_range m ->
  match effects prog m with
  | None =>
      Sem.exec_block (Sem.call_thunk md)
        (prog_code prog k ++ branch_code n t f) e m = None
  | Some m' =>
      exists e',
        Sem.exec_block (Sem.call_thunk md)
          (prog_code prog k ++ branch_code n t f) e m =
          Some (Sem.Goto (if (current m' =? 0)%Z then f else t), e', m')
  end.
Proof.
  intros Hm. rewrite exec_block_open by apply prog_code_open.
  pose proof (exec_prog_code md prog k e m thunks Hm) as He.
  destruct (exec_code _ (prog_code prog k) e m) as [[e1 m1]|];
    cbn [fmap option_fmap option_map snd] in He; rewrite <- He; [|done].
  apply exec_branch_code. apply (effects_in_range prog m m1 Hm).
  by rewrite <- He.
Qed.

Lemma exec_then_ret (prog : string) (k : nat) (e : Sem.env)
    (m : Sem.machine) :
  in_range m ->
  match effects prog m with
  | None =>
      Sem.exec_block (Sem.call_thunk md)
        (prog_code prog k ++ [RetVoid]) e m = None
  | Some m' =>
      exists e',
        Sem.exec_block (Sem.call_thunk md)
          (prog_code prog k ++ [RetVoid]) e m =
          Some (Sem.Return None, e', m')
  end.
Proof.
  intros Hm. rewrite exec_block_open by apply prog_code_open.
  pose proof (exec_prog_code md prog k e m thunks Hm) as He.
  destruct (exec_code _ (prog_code prog k) e m) as [[e1 m1]|];
    cbn [fmap option_fmap option_map snd] in He; rewrite <- He; [|done].
  by exists e1.
Qed.

Variables (pre body post : string) (n1 n2 n3 n4 : nat).

Let bs : list block :=
  [ prog_code pre 0 ++ branch_code n1 1 2;
    prog_code body n2 ++ branch_code n3 1 2;
    prog_code post n4 ++ [RetVoid] ].

Lemma run_tail (fuel : nat) (e : Sem.env) (m : Sem.machine) :
  in_range m ->
  Sem.exec_blocks (Sem.call_thunk md) fuel bs 2%nat e m = finish fuel post m.
Proof.
  intros Hm. destruct fuel as [|fuel]; [done|].
  cbn [Sem.exec_blocks finish]. subst bs. cbn [lookup list_lookup].
  pose proof (exec_then_ret post n4 e m Hm) as H.
  destruct (effects post m) as [m'|].
  - destruct H as [e' ->]. reflexivity.
  - by rewrite H.
Qed.

Lemma run_body (fuel : nat) (e : Sem.env) (m : Sem.machine) :
  in_range m ->
  Sem.exec_blocks (Sem.call_thunk md) fuel bs 1%nat e m =
    iterate fuel body post m.
Proof.
  revert e m. induction fuel as [|fuel IH]; intros e m Hm; [done|].
  cbn [Sem.exec_blocks iterate].
  change (bs !! 1%nat) with (Some (prog_code body n2 ++ branch_code n3 1 2)).
  pose proof (exec_then_branch body n2 n3 1 2 e m Hm) as H.
  pose proof (effects_in_range body m) as Hr.
  destruct (effects body m) as [m'|]; [|by rewrite H].
  destruct H as [e' ->].
  destruct (current m' =? 0)%Z.
  - apply run_tail. by apply Hr.
  - apply IH. by apply Hr.
Qed.

Lemma run_entry (fuel : nat) (e : Sem.env) (m : Sem.machine) :
  in_range m ->
  Sem.exec_blocks (Sem.call_thunk md) fuel bs 0%nat e m =
    one_loop fuel pre body post m.
Proof.
  intros Hm. destruct fuel as [|fuel]; [done|].
  cbn [Sem.exec_blocks one_loop].
  change (bs !! 0%nat) with (Some (prog_code pre 0 ++ branch_code n1 1 2)).
  pose proof (exec_then_branch pre 0 n1 1 2 e m Hm) as H.
  pose proof (effects_in_range pre m) as Hr.
  destruct (effects pre m) as [m'|]; [|by rewrite H].
  destruct H as [e' ->].
  destruct (current m' =? 0)%Z.
  - apply run_tail. by apply Hr.
  - apply run_body. by apply Hr.
Qed.

End Loop.

(** X11. A program made of a text without brackets, a loop whose body has
    no brackets, and another text without brackets compiles to three
    blocks that run as a while loop: the first text, then, as long as the
    current cell is not zero, the body, then the last text; the cell is
    tested before the first turn and after every turn. *)
Theorem loop_runs_as_while (pre body post : string) (m : Sem.machine) :
  straight pre = true -> straight body = true -> straight post = true ->
  in_range m ->
  exists md,
    compile_bf (pre ++ String "[" (body ++ String "]" post)) = inr md /\
    forall fuel,
      Sem.run_from fuel md m = one_loop fuel pre body post m.
Proof.
  intros Hpre Hbody Hpost Hm.
  destruct (compile_one_loop pre body post Hpre Hbody Hpost)
    as (st & n1 & n2 & n3 & Hc & Hb).
  exists (build_module (ret_void st)). split; [exact Hc|]. intros fuel.
  change (Sem.run_from fuel (build_module (ret_void st)) m)
    with (Sem.exec_blocks (Sem.call_thunk (build_module (ret_void st)))
            fuel (blocks (ret_void st)) 0 (Sem.Env [] ∅) m).
  rewrite Hb. apply run_entry; [apply build_module_thunks|exact Hm].
Qed.

Lemma loop_runs_as_while_witness :
  compile_and_run 4 "++[-]." "" = Some (String zero "").
Proof.
  assert (Hb : in_range (Sem.boot "")).
  { unfold in_range, Sem.boot. cbn [Sem.index].
    change MEMORY_SIZE with 65536%Z. lia. }
  destruct (loop_runs_as_while "++" "-" "." (Sem.boot "")
              eq_refl eq_refl eq_refl Hb) as (md & Hc & Hr).
  unfold compile_and_run.
  change ("++[-].") with ("++" ++ String "[" ("-" ++ String "]" "."))%string.
  rewrite Hc. unfold Sem.run. rewrite Hr. vm_compute. reflexivity.
Defined.

Lemma iterate_empty (fuel : nat) (post : string) (m : Sem.machine) :
  current m <> 0%Z -> iterate fuel "" post m = Sem.OutOfFuel.
Proof.
  intros Hz. induction fuel as [|fuel IH]; [done|].
  cbn [iterate effects]. by apply Z.eqb_neq in Hz as ->.
Qed.

(** X12. A loop with an empty body entered on a cell that is not zero is
    compiled like any other, and the run of the module never returns and
    is never undefined: it is out of fuel whatever the fuel. *)
Theorem empty_loop_never_returns (pre post : string) (m m1 : Sem.machine) :
  straight pre = true -> straight post = true -> in_range m ->
  effects pre m = Some m1 -> current m1 <> 0%Z ->
  exists md,
    compile_bf (pre ++ String "[" (String "]" post)) = inr md /\
    forall fuel, Sem.run_from fuel md m = Sem.OutOfFuel.
Proof.
  intros Hpre Hpost Hm He Hz.
  destruct (compile_one_loop pre "" post Hpre eq_refl Hpost)
    as (st & n1 & n2 & n3 & Hc & Hb).
  exists (build_module (ret_void st)). split; [exact Hc|]. intros fuel.
  change (Sem.run_from fuel (build_module (ret_void st)) m)
    with (Sem.exec_blocks (Sem.call_thunk (build_module (ret_void st)))
            fuel (blocks (ret_void st)) 0 (Sem.Env [] ∅) m).
  rewrite Hb, run_entry by (apply build_module_thunks || exact Hm).
  destruct fuel as [|fuel]; [done|]. cbn [one_loop]. rewrite He.
  pose proof Hz as Hz'. apply Z.eqb_neq in Hz' as ->.
  by apply iterate_empty.
Qed.

Lemma empty_loop_never_returns_witness :
  exists md,
    compile_bf "+[]" = inr md /\
    forall fuel, Sem.run fuel md "" = Sem.OutOfFuel.
Proof.
  assert (Hb : in_range (Sem.boot "")).
  { unfold in_range, Sem.boot. cbn [Sem.index].
    change MEMORY_SIZE with 65536%Z. lia. }
  destruct (empty_loop_never_returns "+" "" (Sem.boot "")
              (set_cell (Sem.boot "") 1) eq_refl eq_refl Hb eq_refl)
    as (md & Hc & Hr).
  { cbv. discriminate. }
  exists md. split; [exact Hc|exact Hr].
Defined.
